(** * sqlite-structure: the description of a SQLite database's structure

    A shallow embedding of [src/index.ts].  [getStructure] runs four
    families of catalog queries through a [Storage] function and folds the
    rows into a tree of tables, columns and indexes.

    The storage is the only effect of the program: it is modelled as a
    function that threads a state and either throws or returns rows.  The
    SQL text the program sends is part of the program as well; its meaning
    over SQLite's pragma functions is given in [Module Engine]. *)

From Stdlib Require Import ZArith Ascii String Floats.SpecFloat.
From Stdlib Require OrdersEx.
From stdpp Require Import base option list list_monad sorting strings pretty
  gmap.

Open Scope string_scope.
Open Scope list_scope.

(** ** JavaScript values *)

(** A JavaScript number is an IEEE-754 double: a signed zero, a signed
    infinity, NaN, or a finite [(-1)^s * m * 2^e]. *)
Definition number : Type := spec_float.

Definition NaN : number := S754_nan.

(** The number that holds the integer [z]. *)
Definition number_of_Z (z : Z) : number :=
  match z with
  | Z0 => S754_zero false
  | Zpos p => S754_finite false p 0
  | Zneg p => S754_finite true p 0
  end.

(** The value of the number [n] is the integer [z], whichever mantissa and
    exponent the number is written with. *)
Definition number_is_Z (n : number) (z : Z) : Prop :=
  match n with
  | S754_zero _ => z = 0%Z
  | S754_finite s m e =>
      ((if s then Z.neg m else Z.pos m) * 2 ^ Z.max 0 e
       = z * 2 ^ Z.max 0 (- e))%Z
  | S754_infinity _ | S754_nan => False
  end.

(** [type Value = string | number | null] *)
Inductive Value : Type :=
  | VString (s : string)
  | VNumber (n : number)
  | VNull.

(** The value an integer of the catalog arrives as. *)
Definition integer (z : Z) : Value := VNumber (number_of_Z z).

(** What a property access yields: a [Value], or [undefined] ([None]) when
    the object has no such property. *)
Definition JsVal : Type := option Value.

(** [type Row = Record<string, Value>] *)
Abbreviation Row := (gmap string Value).

(** ECMAScript's ToBoolean on a number: [+0], [-0] and NaN are false. *)
Definition number_truthy (n : number) : bool :=
  match n with
  | S754_zero _ => false
  | S754_nan => false
  | S754_infinity _ => true
  | S754_finite _ _ _ => true
  end.

(** The source's [!!v]: ToBoolean of [v]. *)
Definition truthy (v : JsVal) : bool :=
  match v with
  | None => false
  | Some VNull => false
  | Some (VString s) => negb (String.eqb s "")
  | Some (VNumber n) => number_truthy n
  end.

(** ** Queries *)

(** [type Query<A = any> = { sql: string, values: unknown[] }] *)
Record Query : Type := mkQuery {
  sql : string;
  values : list JsVal;
}.

Definition nl : string := String "010"%char EmptyString.

(** A double-quoted SQL identifier. *)
Definition dq (s : string) : string :=
  String "034"%char s +:+ String "034"%char EmptyString.

(** Modelled from the spec: the tag [sql] is imported from the package
    sql-template-tag, which is not under src/.  As the spec requires of the
    per-table queries, an interpolated value is never written into the
    text: the literal chunks of the template are joined with the
    placeholder [?] and the interpolated values are collected, in order, as
    the bound parameters. *)
Definition sql_tag (strings : list string) (vals : list JsVal) : Query :=
  {| sql := String.concat "?" strings; values := vals |}.

(** The literal chunks of the four templates. *)
Definition pragmaTableListStrings : list string :=
  [ nl +:+
    "    select " +:+ dq "schema" +:+ ", " +:+ dq "name" +:+ ", " +:+ dq "type"
      +:+ ", " +:+ dq "wr" +:+ ", " +:+ dq "strict" +:+ nl +:+
    "    from pragma_table_list()" +:+ nl +:+
    "    where " +:+ dq "schema" +:+ " not like 'temp' and " +:+ dq "name"
      +:+ " not like 'sqlite_%'" +:+ nl +:+
    "    order by " +:+ dq "schema" +:+ ", " +:+ dq "name" +:+ nl +:+
    "  " ].

Definition pragmaTableInfoStrings : list string :=
  [ nl +:+
    "    select " +:+ dq "name" +:+ ", " +:+ dq "type" +:+ ", " +:+ dq "notnull"
      +:+ ", " +:+ dq "dflt_value" +:+ ", " +:+ dq "pk" +:+ nl +:+
    "    from pragma_table_info( ";
    ", ";
    " )" +:+ nl +:+
    "    order by " +:+ dq "name" +:+ nl +:+
    "  " ].

Definition pragmaIndexListStrings : list string :=
  [ nl +:+
    "    select " +:+ dq "name" +:+ ", " +:+ dq "unique" +:+ ", " +:+ dq "origin"
      +:+ ", " +:+ dq "partial" +:+ nl +:+
    "    from pragma_index_list( ";
    ", ";
    " )" +:+ nl +:+
    "    order by " +:+ dq "name" +:+ nl +:+
    "  " ].

Definition pragmaIndexInfoStrings : list string :=
  [ nl +:+
    "    select " +:+ dq "name" +:+ " from" +:+ nl +:+
    "    pragma_index_info( ";
    ", ";
    " )" +:+ nl +:+
    "    order by " +:+ dq "seqno" +:+ nl +:+
    "  " ].

Definition pragmaTableListQuery : Query :=
  sql_tag pragmaTableListStrings [].

(** The three query functions take an object with a [name] and a [schema];
    [getStructure] passes a row, or a fresh object made of two property
    reads. *)
Record Named : Type := mkNamed {
  named_name : JsVal;
  named_schema : JsVal;
}.

Definition Named_of_row (r : Row) : Named :=
  {| named_name := r !! "name"; named_schema := r !! "schema" |}.

Definition pragmaTableInfoQuery (table : Named) : Query :=
  sql_tag pragmaTableInfoStrings [named_name table; named_schema table].

Definition pragmaIndexListQuery (table : Named) : Query :=
  sql_tag pragmaIndexListStrings [named_name table; named_schema table].

Definition pragmaIndexInfoQuery (index : Named) : Query :=
  sql_tag pragmaIndexInfoStrings [named_name index; named_schema index].

(** ** The storage and its effects *)

(** A computation over the storage's state [S] that throws an [E] or
    returns an [A]. *)
Definition M (S E A : Type) : Type := S → (E + A) * S.

Section monad.
Context {S E : Type}.

Definition ret {A} (a : A) : M S E A := λ s, (inr a, s).

Definition bind {A B} (m : M S E A) (k : A → M S E B) : M S E B :=
  λ s, match m s with
       | (inl e, s') => (inl e, s')
       | (inr a, s') => k a s'
       end.

(** [Array.prototype.map] with a callback that has effects: the
    elements are visited from left to right and a throw of the callback
    ends the loop. *)
Fixpoint map_array {A B} (f : A → M S E B) (l : list A) : M S E (list B) :=
  match l with
  | [] => ret []
  | x :: l' =>
      bind (f x) (λ y, bind (map_array f l') (λ ys, ret (y :: ys)))
  end.
End monad.

Notation "'let*' x := m 'in' k" := (bind m (λ x, k))
  (at level 10, x name, m at level 100, k at level 200,
   format "'[v' 'let*'  x  :=  m  'in' '/' k ']'").

(** [type Storage = (query: Query) => Array<Row>] *)
Definition Storage (S E : Type) : Type := Query → M S E (list Row).

(** ** The structure *)

(** [type IndexColumn = PragmaIndexInfo]: the row as the storage gave it. *)
Abbreviation IndexColumn := Row (only parsing).

Record Index : Type := mkIndex {
  index_name : JsVal;
  unique : bool;
  origin : JsVal;
  partial : bool;
  index_columns : list IndexColumn;
}.

Record Column : Type := mkColumn {
  column_name : JsVal;
  type : JsVal;
  notNull : bool;
  defaultValue : JsVal;
  primaryKey : JsVal;
}.

Record Table : Type := mkTable {
  schema : JsVal;
  name : JsVal;
  table_type : JsVal;
  withoutRowid : bool;
  strict : bool;
  columns : list Column;
  indexes : list Index;
}.

Definition Structure : Type := list Table.

Section getStructure.
Context {S E : Type}.

Definition exec (storage : Storage S E) (query : Query) : M S E (list Row) :=
  storage query.

Definition getStructure (storage : Storage S E) : M S E Structure :=
  let* tables := exec storage pragmaTableListQuery in
  map_array (λ table : Row,
    let schema := table !! "schema" in
    let* indexes :=
      (let* rows := exec storage (pragmaIndexListQuery (Named_of_row table)) in
       map_array (λ index : Row,
         let* columns :=
           exec storage (pragmaIndexInfoQuery
             {| named_name := index !! "name"; named_schema := schema |}) in
         ret {| index_name := index !! "name";
                unique := truthy (index !! "unique");
                origin := index !! "origin";
                partial := truthy (index !! "partial");
                index_columns := columns |}) rows) in
    let* columns :=
      (let* rows := exec storage (pragmaTableInfoQuery (Named_of_row table)) in
       ret (map (λ column : Row,
         {| column_name := column !! "name";
            type := column !! "type";
            notNull := truthy (column !! "notnull");
            defaultValue := column !! "dflt_value";
            primaryKey := column !! "pk" |}) rows)) in
    ret {| schema := schema;
           name := table !! "name";
           table_type := table !! "type";
           withoutRowid := truthy (table !! "wr");
           strict := truthy (table !! "strict");
           columns := columns;
           indexes := indexes |}) tables.
End getStructure.


(** ** Storages *)

(** A storage without a state of its own: the answer is a function of the
    query. *)
Definition stateless {S E : Type} (db : Query → E + list Row) : Storage S E :=
  λ q s, (db q, s).

(** A storage is deterministic when its answer to a query does not depend
    on the state it is in (the state may still change: a cache, a
    counter). *)
Definition deterministic {S E : Type} (storage : Storage S E) : Prop :=
  ∀ q s s', (storage q s).1 = (storage q s').1.

(** Two calls in a row, the second from the state the first has left. *)
Definition twice {S E A : Type} (m : M S E A) (s : S) : (E + A) * (E + A) :=
  let first := m s in
  let second := m first.2 in
  (first.1, second.1).

(** One call of the storage: the query and what came back. *)
Definition Event (E : Type) : Type := Query * (E + list Row).

(** [recording storage] behaves as [storage] and keeps a log of the
    calls. *)
Definition recording {S E : Type} (storage : Storage S E)
    : Storage (list (Event E) * S) E :=
  λ q ls, let r := storage q ls.2 in (r.1, (ls.1 ++ [(q, r.1)], r.2)).

(** The log of one call of [getStructure], and its result. *)
Definition calls {S E : Type} (storage : Storage S E) (s : S) : list (Event E) :=
  (getStructure (recording storage) ([], s)).2.1.

Definition result {S E : Type} (storage : Storage S E) (s : S) : E + Structure :=
  (getStructure storage s).1.

Definition answered {E : Type} (ev : Event E) : Prop :=
  ∃ rows, ev.2 = inr rows.

(** ** The callbacks of [getStructure], named *)

Definition toColumn (column : Row) : Column :=
  {| column_name := column !! "name";
     type := column !! "type";
     notNull := truthy (column !! "notnull");
     defaultValue := column !! "dflt_value";
     primaryKey := column !! "pk" |}.

Definition toIndex (index : Row) (cols : list IndexColumn) : Index :=
  {| index_name := index !! "name";
     unique := truthy (index !! "unique");
     origin := index !! "origin";
     partial := truthy (index !! "partial");
     index_columns := cols |}.

Definition toTable (table : Row) (cols : list Column) (ixs : list Index)
    : Table :=
  {| schema := table !! "schema";
     name := table !! "name";
     table_type := table !! "type";
     withoutRowid := truthy (table !! "wr");
     strict := truthy (table !! "strict");
     columns := cols;
     indexes := ixs |}.

(** The three queries made for a table row and for an index row of it. *)
Definition indexListQuery (table : Row) : Query :=
  pragmaIndexListQuery (Named_of_row table).

Definition tableInfoQuery (table : Row) : Query :=
  pragmaTableInfoQuery (Named_of_row table).

Definition indexInfoQuery (table index : Row) : Query :=
  pragmaIndexInfoQuery
    {| named_name := index !! "name"; named_schema := table !! "schema" |}.

Section steps.
Context {S E : Type} (storage : Storage S E).

Definition index_step (table index : Row) : M S E Index :=
  let* cols := exec storage (indexInfoQuery table index) in
  ret (toIndex index cols).

Definition table_step (table : Row) : M S E Table :=
  let* ixs :=
    (let* rows := exec storage (indexListQuery table) in
     map_array (index_step table) rows) in
  let* cols :=
    (let* rows := exec storage (tableInfoQuery table) in
     ret (map toColumn rows)) in
  ret (toTable table cols ixs).
End steps.

(** ** A run and its log *)

Section observed.
Context {S E : Type}.

(** [m'] run over a recording storage does what [m] does over the storage
    itself, and the calls it adds to the log satisfy [φ]. *)
Definition observed {A} (m' : M (list (Event E) * S) E A) (m : M S E A)
    (φ : E + A → list (Event E) → Prop) : Prop :=
  ∀ log s, ∃ evs,
    m' (log, s) = ((m s).1, (log ++ evs, (m s).2)) ∧ φ (m s).1 evs.

(** A run ends cleanly: every call before the end was answered, and a
    thrown error is the one the last call of the log was answered with. *)
Definition clean {A} (r : E + A) (evs : list (Event E)) : Prop :=
  match r with
  | inr _ => Forall answered evs
  | inl e => ∃ evs0 q, evs = evs0 ++ [(q, inl e)] ∧ Forall answered evs0
  end.

(** The calls of a loop: one group of calls for each element visited, [ψ]
    relating the element, its result and its calls. *)
Inductive loop_log {A B} (ψ : A → B → list (Event E) → Prop)
    : list A → list B → list (Event E) → Prop :=
  | loop_log_nil : loop_log ψ [] [] []
  | loop_log_cons x y evs l k evs' :
      ψ x y evs → loop_log ψ l k evs' →
      loop_log ψ (x :: l) (y :: k) (evs ++ evs').

Definition loop_post {A B} (ψ : A → B → list (Event E) → Prop) (l : list A)
    (r : E + list B) (evs : list (Event E)) : Prop :=
  clean r evs ∧ ∀ k, r = inr k → loop_log ψ l k evs.

(** The one call made for an index. *)
Definition index_log (table index : Row) (ix : Index) (evs : list (Event E))
    : Prop :=
  ∃ cols, evs = [(indexInfoQuery table index, inr cols)] ∧
          ix = toIndex index cols.

(** The calls made for a table: its index list, one call for each index,
    then its column list. *)
Definition table_log (table : Row) (t : Table) (evs : list (Event E)) : Prop :=
  ∃ indexRows ixs ievs columnRows,
    loop_log (index_log table) indexRows ixs ievs ∧
    evs = (indexListQuery table, inr indexRows) :: ievs
          ++ [(tableInfoQuery table, inr columnRows)] ∧
    t = toTable table (map toColumn columnRows) ixs.

Definition structure_log (structure : Structure) (evs : list (Event E)) : Prop :=
  ∃ tables tevs,
    evs = (pragmaTableListQuery, inr tables) :: tevs ∧
    loop_log table_log tables structure tevs.

Definition state_independent {A} (m : M S E A) : Prop :=
  ∀ s s', (m s).1 = (m s').1.
End observed.

(** The queries of a table, in the order they are issued, given the rows
    of its index list. *)
Definition table_queries (table : Row) (indexRows : list Row) : list Query :=
  indexListQuery table
    :: (indexInfoQuery table <$> indexRows) ++ [tableInfoQuery table].

(** [q1] is issued before [q2]. *)
Definition issued_before (queries : list Query) (q1 q2 : Query) : Prop :=
  ∃ i j, queries !! i = Some q1 ∧ queries !! j = Some q2 ∧ i < j.

(** ** A stateless storage: the structure in terms of the answers *)

Section stateless.
Context {E : Type} (db : Query → E + list Row).

Definition index_of (table index : Row) (ix : Index) : Prop :=
  ∃ cols, db (indexInfoQuery table index) = inr cols ∧ ix = toIndex index cols.

Definition table_of (table : Row) (t : Table) : Prop :=
  ∃ indexRows ixs columnRows,
    db (indexListQuery table) = inr indexRows ∧
    Forall2 (index_of table) indexRows ixs ∧
    db (tableInfoQuery table) = inr columnRows ∧
    t = toTable table (map toColumn columnRows) ixs.
End stateless.

(** ** Flags *)

(** The field [v] of a row holds the integer [z]. *)
Definition encodes (v : JsVal) (z : Z) : Prop :=
  ∃ n, v = Some (VNumber n) ∧ number_is_Z n z.

(** The values of [Value] that [!!] sends to false. *)
Definition falsy (v : Value) : Prop :=
  v = VNull ∨ v = VString "" ∨ (∃ s, v = VNumber (S754_zero s)) ∨
  v = VNumber NaN.

(** The same without NaN: the number 0, null and the empty string. *)
Definition zero_null_or_empty (v : Value) : Prop :=
  v = VNull ∨ v = VString "" ∨ (∃ s, v = VNumber (S754_zero s)).

(** The flag [b] made of a field that holds an integer. *)
Definition flag_of_integer (v : JsVal) (b : bool) : Prop :=
  ∀ z, encodes v z → b = negb (z =? 0)%Z.

(** The flag [b] made of a field that holds any value. *)
Definition flag_of_value (v : JsVal) (b : bool) : Prop :=
  (v = Some VNull → b = false) ∧
  (∀ str, v = Some (VString str) → str ≠ "" → b = true) ∧
  (∀ x, v = Some x → (b = false ↔ falsy x)).

(** The five flags of a table of the structure, each related by [flag] to
    the field of the row it was made of: the row of the table, and, one by
    one, the rows of its column list and of its index list. *)
Definition row_flags {E : Type} (flag : JsVal → bool → Prop)
    (db : Query → E + list Row) (table : Row) (t : Table) : Prop :=
  flag (table !! "wr") (withoutRowid t) ∧
  flag (table !! "strict") (strict t) ∧
  (∀ columnRows, db (tableInfoQuery table) = inr columnRows →
     Forall2 (λ column c, flag (column !! "notnull") (notNull c))
       columnRows (columns t)) ∧
  (∀ indexRows, db (indexListQuery table) = inr indexRows →
     Forall2 (λ index ix, flag (index !! "unique") (unique ix) ∧
                          flag (index !! "partial") (partial ix))
       indexRows (indexes t)).

(** The primary-key ordinals of a table of the structure are the [pk]
    fields of the rows of its column list. *)
Definition row_primary_keys {E : Type} (db : Query → E + list Row)
    (table : Row) (t : Table) : Prop :=
  ∀ columnRows, db (tableInfoQuery table) = inr columnRows →
    Forall2 (λ column c,
               primaryKey c = column !! "pk" ∧
               ∀ z, encodes (column !! "pk") z → encodes (primaryKey c) z)
      columnRows (columns t).

(** ** More on runs *)

(** A computation that returns, whatever the state. *)
Definition never_fails {S E A : Type} (m : M S E A) : Prop :=
  ∀ s, ∃ a, (m s).1 = inr a.

(** Two computations, over two storages, with the same result. *)
Definition agree {S1 S2 E A : Type} (m1 : M S1 E A) (m2 : M S2 E A) : Prop :=
  ∀ s1 s2, (m1 s1).1 = (m2 s2).1.

(** The queries issued for a table of the structure: two, and one for each
    of its indexes. *)
Definition queries_of_table (t : Table) : nat := 2 + length (indexes t).

(** The storage answers what [getStructure] asks about a table row. *)
Definition table_answered {E : Type} (db : Query → E + list Row) (table : Row)
    : Prop :=
  (∃ indexRows,
     db (indexListQuery table) = inr indexRows ∧
     Forall (λ index, ∃ cols, db (indexInfoQuery table index) = inr cols)
       indexRows) ∧
  ∃ columnRows, db (tableInfoQuery table) = inr columnRows.

(** The fields of a table of the structure that are not flags are the
    fields of the rows, as they are: those of the row of the table and, one
    by one, those of the rows of its column list and of its index list; the
    columns of an index are the rows of its index-column list. *)
Definition row_fields {E : Type} (db : Query → E + list Row)
    (table : Row) (t : Table) : Prop :=
  schema t = table !! "schema" ∧
  name t = table !! "name" ∧
  table_type t = table !! "type" ∧
  (∀ columnRows, db (tableInfoQuery table) = inr columnRows →
     Forall2 (λ column c, column_name c = column !! "name" ∧
                          type c = column !! "type" ∧
                          defaultValue c = column !! "dflt_value")
       columnRows (columns t)) ∧
  (∀ indexRows, db (indexListQuery table) = inr indexRows →
     Forall2 (λ index ix, index_name ix = index !! "name" ∧
                          origin ix = index !! "origin" ∧
                          db (indexInfoQuery table index)
                          = inr (index_columns ix))
       indexRows (indexes t)).

(** The flag [b] made of a field that the row does not have. *)
Definition flag_of_missing (v : JsVal) (b : bool) : Prop :=
  v = None → b = false.


(** ** The SQL of the four statements

    The text of the statements is part of the program; the database engine
    that runs it, SQLite, is not under src/.  [Engine] stands for it.  It
    reads the text: it splits it into tokens, parses the tokens into a
    [select] statement, and evaluates the statement over the rows of
    SQLite's pragma functions: [from] names the function,
    [where ... like ...] filters its rows, [order by] sorts them, and the
    select list projects them onto the named columns.  Nothing in it knows
    the four statements of the program: what they mean follows from their
    text. *)

Module Engine.

(** *** Text: the BINARY collation and the LIKE operator *)

(** Modelled from the spec: the collation of the database engine, which is
    not under src/.  [order by] on text compares the bytes. *)
Definition text_leb (a b : string) : bool := String.leb a b.

Definition to_lower (c : ascii) : ascii :=
  let n := N_of_ascii c in
  if ((65 <=? n) && (n <=? 90))%N then ascii_of_N (n + 32) else c.

Fixpoint lowercase (s : string) : string :=
  match s with
  | EmptyString => EmptyString
  | String c s' => String (to_lower c) (lowercase s')
  end.

(** How LIKE reads a letter: as it is when the connection has
    [case_sensitive_like] on, in lower case otherwise. *)
Definition fold_case (case_sensitive : bool) (c : ascii) : ascii :=
  if case_sensitive then c else to_lower c.

Fixpoint folded (case_sensitive : bool) (s : string) : string :=
  match s with
  | EmptyString => EmptyString
  | String c s' => String (fold_case case_sensitive c) (folded case_sensitive s')
  end.

(** Modelled from the spec: the LIKE operator of the database engine, which
    is not under src/, by which the table list leaves out the objects whose
    name matches a pattern.  In [like case_sensitive pattern s], [%] stands
    for any run of characters, [_] for any one character, and a letter for
    itself, without regard to its case unless [case_sensitive]. *)
Fixpoint like (case_sensitive : bool) (pattern : string) : string → bool :=
  match pattern with
  | EmptyString => λ s, match s with EmptyString => true | _ => false end
  | String p pattern' =>
      if Ascii.eqb p "%" then
        fix star (s : string) : bool :=
          like case_sensitive pattern' s ||
          match s with
          | EmptyString => false
          | String _ s' => star s'
          end
      else if Ascii.eqb p "_" then
        λ s, match s with
             | EmptyString => false
             | String _ s' => like case_sensitive pattern' s'
             end
      else
        λ s, match s with
             | EmptyString => false
             | String c s' =>
                 Ascii.eqb (fold_case case_sensitive p)
                           (fold_case case_sensitive c)
                 && like case_sensitive pattern' s'
             end
  end.

(** *** The rows of the pragma functions *)

(** [pragma_table_list()] *)
Record TableListRow : Type := {
  tl_schema : string;
  tl_name : string;
  tl_type : string;
  tl_ncol : Z;
  tl_wr : Z;
  tl_strict : Z;
}.

(** [pragma_table_info(name, schema)] *)
Record TableInfoRow : Type := {
  ti_cid : Z;
  ti_name : string;
  ti_type : string;
  ti_notnull : Z;
  ti_dflt_value : option string;
  ti_pk : Z;
}.

(** [pragma_index_list(name, schema)] *)
Record IndexListRow : Type := {
  il_seq : Z;
  il_name : string;
  il_unique : Z;
  il_origin : string;
  il_partial : Z;
}.

(** [pragma_index_info(name, schema)]; the name is NULL for a key column
    that is the rowid or an expression. *)
Record IndexInfoRow : Type := {
  ii_seqno : Z;
  ii_cid : Z;
  ii_name : option string;
}.

(** Modelled from the spec: the catalog of the database engine, which is
    not under src/.  A database, as its pragma functions show it, and the
    setting of its connection that LIKE depends on.  The rows come in the order the
    database keeps them; the functions take the values bound to their two
    parameters. *)
Record Catalog : Type := {
  case_sensitive_like : bool;
  pragma_table_list : list TableListRow;
  pragma_table_info : JsVal → JsVal → list TableInfoRow;
  pragma_index_list : JsVal → JsVal → list IndexListRow;
  pragma_index_info : JsVal → JsVal → list IndexInfoRow;
}.

(** *** Values *)

(** A value of the engine. *)
Inductive SqlValue : Type :=
  | SNull
  | SInteger (z : Z)
  | SText (s : string).

Definition maybe_text (s : option string) : SqlValue :=
  match s with
  | Some s => SText s
  | None => SNull
  end.

(** Values as the driver hands them to JavaScript. *)
Definition text (s : string) : Value := VString s.

Definition nullable (s : option string) : Value :=
  match s with
  | Some s => VString s
  | None => VNull
  end.

Definition to_js (v : SqlValue) : Value :=
  match v with
  | SNull => VNull
  | SInteger z => integer z
  | SText s => VString s
  end.

(** Modelled from the spec: the columns of the pragma functions of the
    database engine, which is not under src/.  The columns of a
    table-valued function: their names, and how the value of each is read
    off a row. *)
Definition Schema (A : Type) : Type := list (string * (A → SqlValue)).

Definition table_list_schema : Schema TableListRow :=
  [ ("schema", λ r, SText (tl_schema r));
    ("name", λ r, SText (tl_name r));
    ("type", λ r, SText (tl_type r));
    ("ncol", λ r, SInteger (tl_ncol r));
    ("wr", λ r, SInteger (tl_wr r));
    ("strict", λ r, SInteger (tl_strict r)) ].

Definition table_info_schema : Schema TableInfoRow :=
  [ ("cid", λ r, SInteger (ti_cid r));
    ("name", λ r, SText (ti_name r));
    ("type", λ r, SText (ti_type r));
    ("notnull", λ r, SInteger (ti_notnull r));
    ("dflt_value", λ r, maybe_text (ti_dflt_value r));
    ("pk", λ r, SInteger (ti_pk r)) ].

Definition index_list_schema : Schema IndexListRow :=
  [ ("seq", λ r, SInteger (il_seq r));
    ("name", λ r, SText (il_name r));
    ("unique", λ r, SInteger (il_unique r));
    ("origin", λ r, SText (il_origin r));
    ("partial", λ r, SInteger (il_partial r)) ].

Definition index_info_schema : Schema IndexInfoRow :=
  [ ("seqno", λ r, SInteger (ii_seqno r));
    ("cid", λ r, SInteger (ii_cid r));
    ("name", λ r, maybe_text (ii_name r)) ].

(** *** The text of a statement: tokens *)

Inductive Token : Type :=
  | TWord (w : string)      (* a keyword or a bare name *)
  | TName (n : string)      (* a name in double quotes *)
  | TText (s : string)      (* a text in single quotes *)
  | TComma
  | TOpen
  | TClose
  | TParam.                 (* [?] *)

Definition is_space (c : ascii) : bool :=
  let n := N_of_ascii c in
  ((n =? 32) || (n =? 10) || (n =? 9) || (n =? 13))%N.

Definition is_word_char (c : ascii) : bool :=
  let n := N_of_ascii c in
  (((48 <=? n) && (n <=? 57)) || ((65 <=? n) && (n <=? 90)) ||
   ((97 <=? n) && (n <=? 122)) || (n =? 95))%N.

Inductive LexState : Type :=
  | Between
  | InWord (w : string)
  | InName (n : string)
  | InText (s : string).

Definition snoc (s : string) (c : ascii) : string :=
  s +:+ String c EmptyString.

(** A character read between two tokens. *)
Definition lex_between (c : ascii) : option (list Token * LexState) :=
  if is_space c then Some ([], Between)
  else if Ascii.eqb c "034" then Some ([], InName "")
  else if Ascii.eqb c "'" then Some ([], InText "")
  else if Ascii.eqb c "," then Some ([TComma], Between)
  else if Ascii.eqb c "(" then Some ([TOpen], Between)
  else if Ascii.eqb c ")" then Some ([TClose], Between)
  else if Ascii.eqb c "?" then Some ([TParam], Between)
  else if is_word_char c then Some ([], InWord (String c ""))
  else None.

Definition lex_char (st : LexState) (c : ascii)
    : option (list Token * LexState) :=
  match st with
  | Between => lex_between c
  | InWord w =>
      if is_word_char c then Some ([], InWord (snoc w c))
      else '(toks, st') ← lex_between c; Some (TWord w :: toks, st')
  | InName n =>
      if Ascii.eqb c "034" then Some ([TName n], Between)
      else Some ([], InName (snoc n c))
  | InText s =>
      if Ascii.eqb c "'" then Some ([TText s], Between)
      else Some ([], InText (snoc s c))
  end.

(** Modelled from the spec: the lexical syntax of the database engine,
    which is not under src/.  The tokens of a text: words, names in double
    quotes, texts in single quotes, commas, parentheses and [?], with
    white space between them. *)
Fixpoint lex (st : LexState) (s : string) : option (list Token) :=
  match s with
  | EmptyString =>
      match st with
      | Between => Some []
      | InWord w => Some [TWord w]
      | InName _ | InText _ => None
      end
  | String c s' =>
      '(toks, st') ← lex_char st c;
      rest ← lex st' s';
      Some (toks ++ rest)
  end.

(** *** The text of a statement: syntax *)

(** [column like 'pattern'] or [column not like 'pattern'] *)
Record Condition : Type := {
  cond_negated : bool;
  cond_column : string;
  cond_pattern : string;
}.

(** [select columns from function(?, ...) where conditions order by
    columns], the conditions joined by [and]. *)
Record Select : Type := {
  sel_columns : list string;
  sel_from : string;
  sel_params : nat;
  sel_where : list Condition;
  sel_order : list string;
}.

Definition keyword (k : string) (t : Token) : bool :=
  match t with
  | TWord w => String.eqb (lowercase w) k
  | _ => false
  end.

(** Names in double quotes, separated by commas. *)
Fixpoint parse_names (toks : list Token) : option (list string * list Token) :=
  match toks with
  | TName n :: rest =>
      match rest with
      | TComma :: rest' => '(ns, r) ← parse_names rest'; Some (n :: ns, r)
      | _ => Some ([n], rest)
      end
  | _ => None
  end.

(** Parameters up to the closing parenthesis. *)
Fixpoint parse_params (toks : list Token) : option (nat * list Token) :=
  match toks with
  | TParam :: rest =>
      match rest with
      | TComma :: rest' => '(n, r) ← parse_params rest'; Some (S n, r)
      | TClose :: rest' => Some (1, rest')
      | _ => None
      end
  | _ => None
  end.

Definition parse_arguments (toks : list Token) : option (nat * list Token) :=
  match toks with
  | TOpen :: TClose :: rest => Some (0, rest)
  | TOpen :: rest => parse_params rest
  | _ => None
  end.

Definition parse_condition (toks : list Token)
    : option (Condition * list Token) :=
  match toks with
  | TName c :: t :: rest =>
      if keyword "like" t then
        match rest with
        | TText p :: rest' => Some (Build_Condition false c p, rest')
        | _ => None
        end
      else if keyword "not" t then
        match rest with
        | t' :: TText p :: rest' =>
            if keyword "like" t' then Some (Build_Condition true c p, rest')
            else None
        | _ => None
        end
      else None
  | _ => None
  end.

(** Conditions joined by [and]; [fuel] bounds their number. *)
Fixpoint parse_conditions (fuel : nat) (toks : list Token)
    : option (list Condition * list Token) :=
  match fuel with
  | 0 => None
  | S fuel' =>
      '(c, rest) ← parse_condition toks;
      match rest with
      | t :: rest' =>
          if keyword "and" t
          then '(cs, r) ← parse_conditions fuel' rest'; Some (c :: cs, r)
          else Some ([c], rest)
      | [] => Some ([c], rest)
      end
  end.

Definition parse_where (toks : list Token)
    : option (list Condition * list Token) :=
  match toks with
  | t :: rest =>
      if keyword "where" t then parse_conditions (length rest) rest
      else Some ([], toks)
  | [] => Some ([], toks)
  end.

Definition parse_order (toks : list Token) : option (list string * list Token) :=
  match toks with
  | t :: t' :: rest =>
      if keyword "order" t && keyword "by" t' then parse_names rest
      else Some ([], toks)
  | _ => Some ([], toks)
  end.

(** Modelled from the spec: the syntax of the database engine, which is
    not under src/, as far as the statements of the program go: a [select]
    of named columns from a function applied to parameters, with an
    optional [where] and an optional [order by]. *)
Definition parse_select (toks : list Token) : option Select :=
  match toks with
  | t :: rest =>
      if keyword "select" t then
        '(cols, rest) ← parse_names rest;
        match rest with
        | t' :: TWord function :: rest =>
            if keyword "from" t' then
              '(n, rest) ← parse_arguments rest;
              '(conds, rest) ← parse_where rest;
              '(order, rest) ← parse_order rest;
              match rest with
              | [] => Some {| sel_columns := cols;
                              sel_from := function;
                              sel_params := n;
                              sel_where := conds;
                              sel_order := order |}
              | _ => None
              end
            else None
        | _ => None
        end
      else None
  | [] => None
  end.

Definition parse (text : string) : option Select :=
  toks ← lex Between text; parse_select toks.

(** *** The meaning of a statement *)

Inductive Error : Type :=
  | SyntaxError
  | NoSuchTable
  | NoSuchColumn
  | WrongNumberOfParameters.

Fixpoint column {A} (schema : Schema A) (name : string)
    : option (A → SqlValue) :=
  match schema with
  | [] => None
  | (n, f) :: schema' => if String.eqb n name then Some f else column schema' name
  end.

(** The columns named, each with the way to read it. *)
Definition resolve {A B} (schema : Schema A) (name : B → string) (l : list B)
    : option (list (B * (A → SqlValue))) :=
  mapM (λ b, f ← column schema (name b); Some (b, f)) l.

(** The integer [z] as a text. *)
Definition text_of_integer (z : Z) : string := pretty z.

(** Modelled from the spec: the [where] clause of the database engine,
    which is not under src/.  A condition holds of a row when it is true:
    neither false nor, on NULL, unknown. *)
Definition condition_holds {A} (case_sensitive : bool)
    (c : Condition * (A → SqlValue)) (r : A) : bool :=
  match c.2 r with
  | SNull => false
  | SInteger z =>
      xorb (cond_negated c.1)
           (like case_sensitive (cond_pattern c.1) (text_of_integer z))
  | SText s =>
      xorb (cond_negated c.1) (like case_sensitive (cond_pattern c.1) s)
  end.

Definition conditions_hold {A} (case_sensitive : bool)
    (conds : list (Condition * (A → SqlValue))) (r : A) : bool :=
  forallb (λ c, condition_holds case_sensitive c r) conds.

(** Modelled from the spec: the [order by] clause of the database engine,
    which is not under src/.  The order of two values: NULL first, then
    the integers, then the texts, byte by byte. *)
Definition value_compare (v1 v2 : SqlValue) : comparison :=
  match v1, v2 with
  | SNull, SNull => Eq
  | SNull, _ => Lt
  | _, SNull => Gt
  | SInteger z1, SInteger z2 => Z.compare z1 z2
  | SInteger _, SText _ => Lt
  | SText _, SInteger _ => Gt
  | SText s1, SText s2 => String.compare s1 s2
  end.

(** The order of two rows by a list of columns, the first column first. *)
Fixpoint rows_compare {A} (order : list (A → SqlValue)) (r1 r2 : A)
    : comparison :=
  match order with
  | [] => Eq
  | f :: order' =>
      match value_compare (f r1) (f r2) with
      | Eq => rows_compare order' r1 r2
      | c => c
      end
  end.

Definition rows_leb {A} (order : list (A → SqlValue)) (r1 r2 : A) : bool :=
  match rows_compare order r1 r2 with
  | Gt => false
  | _ => true
  end.

(** A sort by the given order. *)
Definition order_by {A} (leb : A → A → bool) (rows : list A) : list A :=
  merge_sort (λ r1 r2, Is_true (leb r1 r2)) rows.

(** Without [order by] the rows stay as the function lists them. *)
Definition ordered {A} (order : list (A → SqlValue)) (rows : list A) : list A :=
  match order with
  | [] => rows
  | _ => order_by (rows_leb order) rows
  end.

(** Modelled from the spec: the rows of the driver, which is not under
    src/.  The row handed to JavaScript is an object with the selected
    columns by their names. *)
Definition project {A} (cols : list (string * (A → SqlValue))) (r : A) : Row :=
  list_to_map ((λ c, (c.1, to_js (c.2 r))) <$> cols).

(** Modelled from the spec: the database engine that runs the statements
    (SQLite) is not under src/.  A [select] over the rows of a table-valued
    function keeps the rows of which every condition of [where] holds,
    sorts them by the columns of [order by], ascending, and hands over the
    columns of the select list.  A statement that names a column the
    function does not have is given no meaning here. *)
Definition select_from {A} (case_sensitive : bool) (schema : Schema A)
    (rows : list A) (stmt : Select) : Error + list Row :=
  match resolve schema id (sel_columns stmt),
        resolve schema cond_column (sel_where stmt),
        resolve schema id (sel_order stmt) with
  | Some cols, Some conds, Some order =>
      inr (project cols <$>
             ordered (snd <$> order)
               (filter (λ r, Is_true (conditions_hold case_sensitive conds r))
                  rows))
  | _, _, _ => inl NoSuchColumn
  end.

(** Modelled from the spec: the database engine that runs the statements
    (SQLite) is not under src/.  Running a query: the text is parsed, the
    values are bound to the parameters of the function named by [from],
    one value for each [?], and the statement is evaluated over the rows
    of that function. *)
Definition engine (cat : Catalog) (q : Query) : Error + list Row :=
  match parse (sql q) with
  | None => inl SyntaxError
  | Some stmt =>
      if negb (Nat.eqb (length (values q)) (sel_params stmt))
      then inl WrongNumberOfParameters
      else
        let function := lowercase (sel_from stmt) in
        let cs := case_sensitive_like cat in
        match values q with
        | [] =>
            if String.eqb function "pragma_table_list"
            then select_from cs table_list_schema (pragma_table_list cat) stmt
            else inl NoSuchTable
        | [name; schema] =>
            if String.eqb function "pragma_table_info"
            then select_from cs table_info_schema
                   (pragma_table_info cat name schema) stmt
            else if String.eqb function "pragma_index_list"
            then select_from cs index_list_schema
                   (pragma_index_list cat name schema) stmt
            else if String.eqb function "pragma_index_info"
            then select_from cs index_info_schema
                   (pragma_index_info cat name schema) stmt
            else inl NoSuchTable
        | _ => inl NoSuchTable
        end
  end.

(** [getStructure] over a database: the storage is the engine. *)
Definition describe (cat : Catalog) : Error + Structure :=
  result (S:=unit) (stateless (engine cat)) tt.

(** *** The four statements, as the engine reads them

    What the text of each statement comes to, once parsed and evaluated
    over the typed rows of its function. *)

(** [where "schema" not like 'temp' and "name" not like 'sqlite_%'] *)
Definition table_list_where (case_sensitive : bool) (r : TableListRow) : bool :=
  negb (like case_sensitive "temp" (tl_schema r)) &&
  negb (like case_sensitive "sqlite_%" (tl_name r)).

(** [order by "schema", "name"] *)
Definition table_list_order (r1 r2 : TableListRow) : bool :=
  match String.compare (tl_schema r1) (tl_schema r2) with
  | Lt => true
  | Eq => text_leb (tl_name r1) (tl_name r2)
  | Gt => false
  end.

(** [select "schema", "name", "type", "wr", "strict"] *)
Definition table_list_select (r : TableListRow) : Row :=
  {[ "schema" := text (tl_schema r);
     "name" := text (tl_name r);
     "type" := text (tl_type r);
     "wr" := integer (tl_wr r);
     "strict" := integer (tl_strict r) ]}.

(** [order by "name"] *)
Definition table_info_order (r1 r2 : TableInfoRow) : bool :=
  text_leb (ti_name r1) (ti_name r2).

(** [select "name", "type", "notnull", "dflt_value", "pk"] *)
Definition table_info_select (r : TableInfoRow) : Row :=
  {[ "name" := text (ti_name r);
     "type" := text (ti_type r);
     "notnull" := integer (ti_notnull r);
     "dflt_value" := nullable (ti_dflt_value r);
     "pk" := integer (ti_pk r) ]}.

(** [order by "name"] *)
Definition index_list_order (r1 r2 : IndexListRow) : bool :=
  text_leb (il_name r1) (il_name r2).

(** [select "name", "unique", "origin", "partial"] *)
Definition index_list_select (r : IndexListRow) : Row :=
  {[ "name" := text (il_name r);
     "unique" := integer (il_unique r);
     "origin" := text (il_origin r);
     "partial" := integer (il_partial r) ]}.

(** [order by "seqno"] *)
Definition index_info_order (r1 r2 : IndexInfoRow) : bool :=
  (ii_seqno r1 <=? ii_seqno r2)%Z.

(** [select "name"] *)
Definition index_info_select (r : IndexInfoRow) : Row :=
  {[ "name" := nullable (ii_name r) ]}.

(** The rows of the table list: what is left of the catalog's rows by the
    [where] clause, in the order of [order by]. *)
Definition listed_tables (cat : Catalog) : list TableListRow :=
  order_by table_list_order
    (filter (λ r, Is_true (table_list_where (case_sensitive_like cat) r))
       (pragma_table_list cat)).

(** Text fields of the structure, compared as [order by] compares them. *)
Definition text_le (a b : JsVal) : Prop :=
  match a, b with
  | Some (VString x), Some (VString y) => Is_true (text_leb x y)
  | _, _ => False
  end.

(** A row of [pragma_table_info] and a row of [pragma_index_info] without
    their [cid], the position of the column in the declaration of the
    table. *)
Definition column_without_cid (r : TableInfoRow) : TableInfoRow :=
  {| ti_cid := 0;
     ti_name := ti_name r;
     ti_type := ti_type r;
     ti_notnull := ti_notnull r;
     ti_dflt_value := ti_dflt_value r;
     ti_pk := ti_pk r |}.

Definition key_without_cid (r : IndexInfoRow) : IndexInfoRow :=
  {| ii_seqno := ii_seqno r; ii_cid := 0; ii_name := ii_name r |}.

(** Two databases with the same tables, whose columns are declared in any
    order: the catalogs list the same columns for each table, in any order
    and whatever the [cid].  Nothing is asked of the indexes, which a
    change of the declaration may rename and renumber. *)
Definition same_columns_up_to_order (cat1 cat2 : Catalog) : Prop :=
  case_sensitive_like cat1 = case_sensitive_like cat2 ∧
  pragma_table_list cat1 = pragma_table_list cat2 ∧
  ∀ name schema,
    column_without_cid <$> pragma_table_info cat1 name schema
    ≡ₚ column_without_cid <$> pragma_table_info cat2 name schema.

(** The columns of a table have distinct names, and the columns of the key
    of an index distinct positions. *)
Definition distinct_column_names (cat : Catalog) : Prop :=
  ∀ name schema, NoDup (ti_name <$> pragma_table_info cat name schema).

Definition distinct_key_positions (cat : Catalog) : Prop :=
  ∀ name schema, NoDup (ii_seqno <$> pragma_index_info cat name schema).

(** The key of an index, listed from left to right. *)
Definition key_order (r1 r2 : IndexInfoRow) : Prop :=
  (ii_seqno r1 < ii_seqno r2)%Z.

(** Two tables of two structures with the same schema, name and columns. *)
Definition same_columns (t1 t2 : Table) : Prop :=
  schema t2 = schema t1 ∧ name t2 = name t1 ∧ columns t2 = columns t1.

(** *** The structure of a database, spelled out *)

(** What a flag of the catalog decodes to. *)
Definition flag (z : Z) : bool := negb (z =? 0)%Z.

Definition column_from (r : TableInfoRow) : Column :=
  {| column_name := Some (text (ti_name r));
     type := Some (text (ti_type r));
     notNull := flag (ti_notnull r);
     defaultValue := Some (nullable (ti_dflt_value r));
     primaryKey := Some (integer (ti_pk r)) |}.

(** The index of a row of the index list of a table of the schema
    [schema]: its columns are the key of the index in the order of
    [seqno]. *)
Definition index_from (cat : Catalog) (schema : JsVal) (r : IndexListRow)
    : Index :=
  {| index_name := Some (text (il_name r));
     unique := flag (il_unique r);
     origin := Some (text (il_origin r));
     partial := flag (il_partial r);
     index_columns :=
       index_info_select <$>
         order_by index_info_order
           (pragma_index_info cat (Some (text (il_name r))) schema) |}.

(** The table of a row of the table list: its columns in the order of their
    names, and its indexes in the order of theirs. *)
Definition table_from (cat : Catalog) (r : TableListRow) : Table :=
  {| schema := Some (text (tl_schema r));
     name := Some (text (tl_name r));
     table_type := Some (text (tl_type r));
     withoutRowid := flag (tl_wr r);
     strict := flag (tl_strict r);
     columns :=
       column_from <$>
         order_by table_info_order
           (pragma_table_info cat (Some (text (tl_name r)))
              (Some (text (tl_schema r))));
     indexes :=
       index_from cat (Some (text (tl_schema r))) <$>
         order_by index_list_order
           (pragma_index_list cat (Some (text (tl_name r)))
              (Some (text (tl_schema r)))) |}.

Definition structure_of (cat : Catalog) : Structure :=
  table_from cat <$> listed_tables cat.

(** *** Which tables are listed *)

(** A pattern without wildcards, in lower case. *)
Fixpoint plain (pattern : string) : bool :=
  match pattern with
  | EmptyString => true
  | String p pattern' =>
      negb (Ascii.eqb p "%") && negb (Ascii.eqb p "_") &&
      Ascii.eqb (to_lower p) p && plain pattern'
  end.

(** The schema is not [temp], and the name is not [sqlite] followed by one
    character or more; the letters are read as LIKE reads them, in
    capitals or not unless the connection is [case_sensitive]. *)
Definition kept (case_sensitive : bool) (schema name : string) : Prop :=
  folded case_sensitive schema ≠ "temp" ∧
  ¬ (folded case_sensitive (substring 0 6 name) = "sqlite" ∧
     6 < String.length name).

(** *** Order *)

(** The tables of a structure, compared by schema and then by name. *)
Definition table_le (t1 t2 : Table) : Prop :=
  match schema t1, name t1, schema t2, name t2 with
  | Some (VString s1), Some (VString n1), Some (VString s2), Some (VString n2) =>
      match String.compare s1 s2 with
      | Lt => True
      | Eq => Is_true (text_leb n1 n2)
      | Gt => False
      end
  | _, _, _, _ => False
  end.

(** A row of [pragma_index_list] without its [seq], the rank of the index
    among the indexes of the table. *)
Definition index_without_seq (r : IndexListRow) : IndexListRow :=
  {| il_seq := 0;
     il_name := il_name r;
     il_unique := il_unique r;
     il_origin := il_origin r;
     il_partial := il_partial r |}.

(** Two databases with the same tables, columns, indexes and keys, listed
    by their catalogs in any order and with any [cid] and [seq]. *)
Definition same_up_to_order (cat1 cat2 : Catalog) : Prop :=
  case_sensitive_like cat1 = case_sensitive_like cat2 ∧
  pragma_table_list cat1 ≡ₚ pragma_table_list cat2 ∧
  (∀ name schema,
     column_without_cid <$> pragma_table_info cat1 name schema
     ≡ₚ column_without_cid <$> pragma_table_info cat2 name schema) ∧
  (∀ name schema,
     index_without_seq <$> pragma_index_list cat1 name schema
     ≡ₚ index_without_seq <$> pragma_index_list cat2 name schema) ∧
  (∀ name schema,
     key_without_cid <$> pragma_index_info cat1 name schema
     ≡ₚ key_without_cid <$> pragma_index_info cat2 name schema).

(** No two tables of a schema have the same name, and no two indexes of a
    table. *)
Definition distinct_table_names (cat : Catalog) : Prop :=
  NoDup ((λ r, (tl_schema r, tl_name r)) <$> pragma_table_list cat).

Definition distinct_index_names (cat : Catalog) : Prop :=
  ∀ name schema, NoDup (il_name <$> pragma_index_list cat name schema).

End Engine.

(** ** Sample storages and databases *)

Module Sample.

Inductive Statement : Type :=
  | TableList
  | TableInfo
  | IndexList
  | IndexInfo.

(** The sample storages tell the four statements of the program apart by
    their text. *)
Definition prepare (text : string) : option Statement :=
  if String.eqb text (String.concat "?" pragmaTableListStrings)
  then Some TableList
  else if String.eqb text (String.concat "?" pragmaTableInfoStrings)
  then Some TableInfo
  else if String.eqb text (String.concat "?" pragmaIndexListStrings)
  then Some IndexList
  else if String.eqb text (String.concat "?" pragmaIndexInfoStrings)
  then Some IndexInfo
  else None.

(** A storage that knows one table: what it answers to each of the four
    statements. *)
Definition one_table (table : Row) (indexRows indexColumns columnRows : list Row)
    : Query → string + list Row :=
  λ q, match prepare (sql q) with
       | Some TableList => inr [table]
       | Some IndexList => inr indexRows
       | Some IndexInfo => inr indexColumns
       | Some TableInfo => inr columnRows
       | None => inl "no such statement"
       end.

Definition table_row (v : Value) : Row :=
  {[ "schema" := VString "main"; "name" := VString "t";
     "type" := VString "table"; "wr" := v; "strict" := v ]}.

Definition index_row (v : Value) : Row :=
  {[ "name" := VString "i"; "unique" := v; "origin" := VString "c";
     "partial" := v ]}.

Definition column_row (v : Value) : Row :=
  {[ "name" := VString "c"; "type" := VString "text"; "notnull" := v;
     "dflt_value" := VNull; "pk" := integer 1 ]}.

(** One table with one index and one column, every flag delivered as [v]. *)
Definition flagged (v : Value) : Query → string + list Row :=
  one_table (table_row v) [index_row v] [ {[ "name" := VString "c" ]} ]
            [column_row v].

(** What [getStructure] makes of it, the flags of [v] being [b]. *)
Definition flagged_table (b : bool) : Table :=
  {| schema := Some (VString "main");
     name := Some (VString "t");
     table_type := Some (VString "table");
     withoutRowid := b;
     strict := b;
     columns := [ mkColumn (Some (VString "c")) (Some (VString "text")) b
                    (Some VNull) (Some (integer 1)) ];
     indexes := [ mkIndex (Some (VString "i")) b (Some (VString "c")) b
                    [ {[ "name" := VString "c" ]} ] ] |}.

(** The same table, over a storage whose index-column query fails. *)
Definition broken : Query → string + list Row :=
  λ q, match prepare (sql q) with
       | Some IndexInfo => inl "disk I/O error"
       | _ => flagged (integer 1) q
       end.

(** A storage that counts its calls. *)
Definition counting {E} (db : Query → E + list Row) : Storage nat E :=
  λ q n, (db q, S n).

(** What [name] and [schema] are bound to. *)
Definition is_named (n s : string) (name schema : JsVal) : bool :=
  match name, schema with
  | Some (VString n'), Some (VString s') => String.eqb n n' && String.eqb s s'
  | _, _ => false
  end.

(** [create table t (b text not null, a integer, x integer, y integer,
    primary key (x, y)); create index t_ba on t (b, a)], next to the
    engine's own tables and a table of the temporary schema.  The key of
    [t_ba] is listed from its last column to its first. *)
Definition columns_of_t : list Engine.TableInfoRow :=
  [ Engine.Build_TableInfoRow 0 "b" "text" 1 None 0;
    Engine.Build_TableInfoRow 1 "a" "integer" 0 None 0;
    Engine.Build_TableInfoRow 2 "x" "integer" 0 None 1;
    Engine.Build_TableInfoRow 3 "y" "integer" 0 None 2 ].

Definition key_of_t_ba : list Engine.IndexInfoRow :=
  [ Engine.Build_IndexInfoRow 0 0 (Some "b");
    Engine.Build_IndexInfoRow 1 1 (Some "a") ].

Definition database_with (cols : list Engine.TableInfoRow) : Engine.Catalog :=
  {| Engine.case_sensitive_like := false;
     Engine.pragma_table_list :=
       [ Engine.Build_TableListRow "temp" "scratch" "table" 1 0 0;
         Engine.Build_TableListRow "main" "t" "table" 4 0 0;
         Engine.Build_TableListRow "main" "sqlite_schema" "table" 5 0 0;
         Engine.Build_TableListRow "temp" "sqlite_temp_schema" "table" 5 0 0 ];
     Engine.pragma_table_info := λ name schema,
       if is_named "t" "main" name schema then cols else [];
     Engine.pragma_index_list := λ name schema,
       if is_named "t" "main" name schema
       then [ Engine.Build_IndexListRow 0 "t_ba" 0 "c" 0;
              Engine.Build_IndexListRow 1 "sqlite_autoindex_t_1" 1 "pk" 0 ]
       else [];
     Engine.pragma_index_info := λ name schema,
       if is_named "t_ba" "main" name schema then reverse key_of_t_ba
       else if is_named "sqlite_autoindex_t_1" "main" name schema
       then [ Engine.Build_IndexInfoRow 0 2 (Some "x");
              Engine.Build_IndexInfoRow 1 3 (Some "y") ]
       else [] |}.

Definition database : Engine.Catalog := database_with columns_of_t.

(** The same with the columns declared in the opposite order:
    [create table t (y integer, x integer, a integer, b text not null,
    primary key (x, y))]. *)
Definition database' : Engine.Catalog :=
  {| Engine.case_sensitive_like := false;
     Engine.pragma_table_list := Engine.pragma_table_list database;
     Engine.pragma_table_info := λ name schema,
       if is_named "t" "main" name schema
       then [ Engine.Build_TableInfoRow 0 "y" "integer" 0 None 2;
              Engine.Build_TableInfoRow 1 "x" "integer" 0 None 1;
              Engine.Build_TableInfoRow 2 "a" "integer" 0 None 0;
              Engine.Build_TableInfoRow 3 "b" "text" 1 None 0 ]
       else [];
     Engine.pragma_index_list := Engine.pragma_index_list database;
     Engine.pragma_index_info := λ name schema,
       if is_named "t_ba" "main" name schema
       then [ Engine.Build_IndexInfoRow 1 2 (Some "a");
              Engine.Build_IndexInfoRow 0 3 (Some "b") ]
       else if is_named "sqlite_autoindex_t_1" "main" name schema
       then [ Engine.Build_IndexInfoRow 0 1 (Some "x");
              Engine.Build_IndexInfoRow 1 0 (Some "y") ]
       else [] |}.

(** What [getStructure] makes of [database]. *)
Definition index_t_ba : Index :=
  mkIndex (Some (VString "t_ba")) false (Some (VString "c")) false
    [ {[ "name" := VString "b" ]}; {[ "name" := VString "a" ]} ].

Definition index_t_pk : Index :=
  mkIndex (Some (VString "sqlite_autoindex_t_1")) true (Some (VString "pk"))
    false [ {[ "name" := VString "x" ]}; {[ "name" := VString "y" ]} ].

Definition table_t : Table :=
  {| schema := Some (VString "main");
     name := Some (VString "t");
     table_type := Some (VString "table");
     withoutRowid := false;
     strict := false;
     columns :=
       [ mkColumn (Some (VString "a")) (Some (VString "integer")) false
           (Some VNull) (Some (integer 0));
         mkColumn (Some (VString "b")) (Some (VString "text")) true
           (Some VNull) (Some (integer 0));
         mkColumn (Some (VString "x")) (Some (VString "integer")) false
           (Some VNull) (Some (integer 1));
         mkColumn (Some (VString "y")) (Some (VString "integer")) false
           (Some VNull) (Some (integer 2)) ];
     indexes := [index_t_pk; index_t_ba] |}.

Definition structure : Structure := [table_t].

(** A database without tables. *)
Definition empty : Engine.Catalog :=
  {| Engine.case_sensitive_like := false;
     Engine.pragma_table_list := [];
     Engine.pragma_table_info := λ _ _, [];
     Engine.pragma_index_list := λ _ _, [];
     Engine.pragma_index_info := λ _ _, [] |}.

(** [create table t (id integer primary key, name text not null);
    create unique index t_name on t (name)] *)
Definition scenario : Engine.Catalog :=
  {| Engine.case_sensitive_like := false;
     Engine.pragma_table_list :=
       [ Engine.Build_TableListRow "main" "sqlite_schema" "table" 5 0 0;
         Engine.Build_TableListRow "main" "t" "table" 2 0 0 ];
     Engine.pragma_table_info := λ name schema,
       if is_named "t" "main" name schema
       then [ Engine.Build_TableInfoRow 0 "id" "integer" 0 None 1;
              Engine.Build_TableInfoRow 1 "name" "text" 1 None 0 ]
       else [];
     Engine.pragma_index_list := λ name schema,
       if is_named "t" "main" name schema
       then [ Engine.Build_IndexListRow 0 "t_name" 1 "c" 0 ]
       else [];
     Engine.pragma_index_info := λ name schema,
       if is_named "t_name" "main" name schema
       then [ Engine.Build_IndexInfoRow 0 1 (Some "name") ]
       else [] |}.

Definition scenario_structure : Structure :=
  [ {| schema := Some (VString "main");
       name := Some (VString "t");
       table_type := Some (VString "table");
       withoutRowid := false;
       strict := false;
       columns :=
         [ mkColumn (Some (VString "id")) (Some (VString "integer")) false
             (Some VNull) (Some (integer 1));
           mkColumn (Some (VString "name")) (Some (VString "text")) true
             (Some VNull) (Some (integer 0)) ];
       indexes :=
         [ mkIndex (Some (VString "t_name")) true (Some (VString "c")) false
             [ {[ "name" := VString "name" ]} ] ] |} ].

(** A storage whose rows have a name and nothing else. *)
Definition bare : Query → string + list Row :=
  one_table {[ "name" := VString "t" ]} [ {[ "name" := VString "i" ]} ]
            [ {[ "name" := VString "c" ]} ] [ {[ "name" := VString "c" ]} ].

Definition bare_table : Table :=
  {| schema := None;
     name := Some (VString "t");
     table_type := None;
     withoutRowid := false;
     strict := false;
     columns := [ mkColumn (Some (VString "c")) None false None None ];
     indexes := [ mkIndex (Some (VString "i")) false None false
                    [ {[ "name" := VString "c" ]} ] ] |}.

(** The sample database, its tables, columns and indexes created in the
    opposite order. *)
Definition shuffled : Engine.Catalog :=
  {| Engine.case_sensitive_like := false;
     Engine.pragma_table_list := reverse (Engine.pragma_table_list database);
     Engine.pragma_table_info := Engine.pragma_table_info database';
     Engine.pragma_index_list := λ name schema,
       if is_named "t" "main" name schema
       then [ Engine.Build_IndexListRow 0 "sqlite_autoindex_t_1" 1 "pk" 0;
              Engine.Build_IndexListRow 1 "t_ba" 0 "c" 0 ]
       else [];
     Engine.pragma_index_info := Engine.pragma_index_info database' |}.

(** The sample database with the columns of [t] declared in the opposite
    order, and its indexes listed and numbered the other way round. *)
Definition redeclared : Engine.Catalog :=
  {| Engine.case_sensitive_like := false;
     Engine.pragma_table_list := Engine.pragma_table_list database;
     Engine.pragma_table_info := Engine.pragma_table_info database';
     Engine.pragma_index_list := Engine.pragma_index_list shuffled;
     Engine.pragma_index_info := Engine.pragma_index_info database' |}.

(** Tables whose names look like those of the engine, or do not. *)
Definition lookalikes : Engine.Catalog :=
  {| Engine.case_sensitive_like := false;
     Engine.pragma_table_list :=
       [ Engine.Build_TableListRow "main" "sqlite" "table" 1 0 0;
         Engine.Build_TableListRow "main" "sqlite3_notes" "table" 1 0 0;
         Engine.Build_TableListRow "main" "SQLITE_NOTES" "table" 1 0 0;
         Engine.Build_TableListRow "main" "my_sqlite_notes" "table" 1 0 0;
         Engine.Build_TableListRow "TEMP" "notes" "table" 1 0 0;
         Engine.Build_TableListRow "temporary" "notes" "table" 1 0 0 ];
     Engine.pragma_table_info := λ _ _, [];
     Engine.pragma_index_list := λ _ _, [];
     Engine.pragma_index_info := λ _ _, [] |}.

(** The same tables over a connection with [case_sensitive_like] on. *)
Definition lookalikes_case_sensitive : Engine.Catalog :=
  {| Engine.case_sensitive_like := true;
     Engine.pragma_table_list := Engine.pragma_table_list lookalikes;
     Engine.pragma_table_info := λ _ _, [];
     Engine.pragma_index_list := λ _ _, [];
     Engine.pragma_index_info := λ _ _, [] |}.

End Sample.

(** * Lemmas *)

(** ** The monad *)

Lemma getStructure_steps {S E} (storage : Storage S E) :
  getStructure storage =
  (let* tables := exec storage pragmaTableListQuery in
   map_array (table_step storage) tables).
Proof. reflexivity. Qed.

Lemma bind_inr {S E A B} (m : M S E A) (k : A → M S E B) s a s' :
  m s = (inr a, s') → bind m k s = k a s'.
Proof. intros Hm. unfold bind. by rewrite Hm. Qed.

Lemma bind_inl {S E A B} (m : M S E A) (k : A → M S E B) s e s' :
  m s = (inl e, s') → bind m k s = (inl e, s').
Proof. intros Hm. unfold bind. by rewrite Hm. Qed.

(** ** Rules for runs over a recording storage *)

Section observed_rules.
Context {S E : Type}.

Lemma observed_ret {A} (a : A) (φ : E + A → list (Event E) → Prop) :
  φ (inr a) [] → observed (S:=S) (ret a) (ret a) φ.
Proof.
  intros Hφ log s. exists []. by rewrite (right_id_L [] (++)).
Qed.

Lemma observed_exec (storage : Storage S E) q
    (φ : E + list Row → list (Event E) → Prop) :
  (∀ r, φ r [(q, r)]) →
  observed (exec (recording storage) q) (exec storage q) φ.
Proof.
  intros Hφ log s. exists [(q, (storage q s).1)]. split; [done|apply Hφ].
Qed.

Lemma observed_bind {A B} m' m (k' : A → M (list (Event E) * S) E B) k
    (φ1 : E + A → list (Event E) → Prop)
    (φ2 : A → E + B → list (Event E) → Prop)
    (φ : E + B → list (Event E) → Prop) :
  observed m' m φ1 →
  (∀ a, observed (k' a) (k a) (φ2 a)) →
  (∀ e evs, φ1 (inl e) evs → φ (inl e) evs) →
  (∀ a evs1 r evs2, φ1 (inr a) evs1 → φ2 a r evs2 → φ r (evs1 ++ evs2)) →
  observed (bind m' k') (bind m k) φ.
Proof.
  intros Hm Hk Hl Hr log s.
  destruct (Hm log s) as (evs1 & Heq1 & H1).
  destruct (m s) as [[e|a] s1] eqn:Hms; simpl in *.
  - exists evs1. rewrite (bind_inl _ _ _ _ _ Heq1), (bind_inl _ _ _ _ _ Hms).
    eauto.
  - destruct (Hk a (log ++ evs1) s1) as (evs2 & Heq2 & H2).
    exists (evs1 ++ evs2).
    rewrite (bind_inr _ _ _ _ _ Heq1), (bind_inr _ _ _ _ _ Hms).
    rewrite Heq2, (assoc_L (++)). eauto.
Qed.

Lemma clean_app {A B} (a : A) (r : E + B) evs1 evs2 :
  clean (inr a) evs1 → clean r evs2 → clean r (evs1 ++ evs2).
Proof.
  intros H1 H2. destruct r as [e|b]; simpl in *.
  - destruct H2 as (evs0 & q & -> & H0). exists (evs1 ++ evs0), q.
    rewrite (assoc_L (++)). split; [done|]. by apply Forall_app.
  - by apply Forall_app.
Qed.

Lemma observed_map_array {A B} (f' : A → M (list (Event E) * S) E B) f
    (ψ : A → B → list (Event E) → Prop) l :
  (∀ x, observed (f' x) (f x)
          (λ r evs, clean r evs ∧ ∀ y, r = inr y → ψ x y evs)) →
  observed (map_array f' l) (map_array f l) (loop_post ψ l).
Proof.
  intros Hf. induction l as [|x l IH]; simpl.
  - apply observed_ret. split; [by constructor|].
    intros k [= <-]. constructor.
  - eapply (observed_bind _ _ _ _ _
      (λ y r evs, clean r evs ∧
         ∀ k, r = inr k → ∃ ys, k = y :: ys ∧ loop_log ψ l ys evs));
      [apply Hf| | |].
    + intros y. eapply (observed_bind _ _ _ _ _
        (λ ys r evs, evs = [] ∧ r = inr (y :: ys))); [apply IH| | |].
      * intros ys. by apply observed_ret.
      * intros e evs [Hc _]. split; [done|]. intros ? [=].
      * intros ys evs1 r evs2 [Hc Hlog] [-> ->].
        rewrite (right_id_L [] (++)). split; [done|].
        intros k [= <-]. eauto.
    + intros e evs [Hc _]. split; [done|]. intros ? [=].
    + intros y evs1 r evs2 [Hc1 Hψ] [Hc2 Hk]. split.
      * by eapply clean_app.
      * intros k ->. destruct (Hk _ eq_refl) as (ys & -> & Hlog).
        constructor; eauto.
Qed.
End observed_rules.

(** ** What a run of [getStructure] calls and builds *)

Section run_log.
Context {S E : Type} (storage : Storage S E).

Lemma clean_call q (e : E) {A} : clean (A:=A) (inl e) [(q, inl e)].
Proof. exists [], q. split; [done|constructor]. Qed.

Lemma answered_call q rows : Forall answered [(q, @inr E _ rows)].
Proof. repeat constructor. by exists rows. Qed.

Lemma index_step_observed table index :
  observed (index_step (recording storage) table index)
           (index_step storage table index)
           (λ r evs, clean r evs ∧ ∀ ix, r = inr ix → index_log table index ix evs).
Proof.
  eapply (observed_bind _ _ _ _
    (λ r evs, evs = [(indexInfoQuery table index, r)])
    (λ cols r evs, evs = [] ∧ r = inr (toIndex index cols))).
  - by apply observed_exec.
  - intros cols. by apply observed_ret.
  - intros e evs ->. split; [apply clean_call|]. intros ? [=].
  - intros cols evs1 r evs2 -> [-> ->]. split; [apply answered_call|].
    intros ix [= <-]. by exists cols.
Qed.

Lemma table_step_observed table :
  observed (table_step (recording storage) table) (table_step storage table)
           (λ r evs, clean r evs ∧ ∀ t, r = inr t → table_log table t evs).
Proof.
  eapply (observed_bind _ _ _ _
    (λ r evs, clean r evs ∧ ∀ ixs, r = inr ixs → ∃ indexRows ievs,
       evs = (indexListQuery table, inr indexRows) :: ievs ∧
       loop_log (index_log table) indexRows ixs ievs)
    (λ ixs r evs, clean r evs ∧ ∀ t, r = inr t → ∃ columnRows,
       evs = [(tableInfoQuery table, inr columnRows)] ∧
       t = toTable table (map toColumn columnRows) ixs)).
  - eapply (observed_bind _ _ _ _
      (λ r evs, evs = [(indexListQuery table, r)])
      (λ rows, loop_post (index_log table) rows)).
    + by apply observed_exec.
    + intros rows. apply observed_map_array, index_step_observed.
    + intros e evs ->. split; [apply clean_call|]. intros ? [=].
    + intros rows evs1 r evs2 -> [Hc Hlog]. split.
      * eapply (clean_app rows); [apply answered_call|done].
      * intros ixs ->. exists rows, evs2. eauto.
  - intros ixs. eapply (observed_bind _ _ _ _
      (λ r evs, clean r evs ∧ ∀ cols, r = inr cols → ∃ columnRows,
         evs = [(tableInfoQuery table, inr columnRows)] ∧
         cols = map toColumn columnRows)
      (λ cols r evs, evs = [] ∧ r = inr (toTable table cols ixs))).
    + eapply (observed_bind _ _ _ _
        (λ r evs, evs = [(tableInfoQuery table, r)])
        (λ rows r evs, evs = [] ∧ r = inr (map toColumn rows))).
      * by apply observed_exec.
      * intros rows. by apply observed_ret.
      * intros e evs ->. split; [apply clean_call|]. intros ? [=].
      * intros rows evs1 r evs2 -> [-> ->]. split; [apply answered_call|].
        intros cols [= <-]. eauto.
    + intros cols. by apply observed_ret.
    + intros e evs [Hc _]. split; [done|]. intros ? [=].
    + intros cols evs1 r evs2 [Hc Hcols] [-> ->].
      rewrite (right_id_L [] (++)). split; [done|].
      intros t [= <-]. destruct (Hcols _ eq_refl) as (columnRows & -> & ->).
      eauto.
  - intros e evs [Hc _]. split; [done|]. intros ? [=].
  - intros ixs evs1 r evs2 [Hc1 Hixs] [Hc2 Ht]. split.
    + by eapply clean_app.
    + intros t ->. destruct (Hixs _ eq_refl) as (indexRows & ievs & -> & Hlog).
      destruct (Ht _ eq_refl) as (columnRows & -> & ->).
      exists indexRows, ixs, ievs, columnRows. eauto.
Qed.

Lemma getStructure_observed :
  observed (getStructure (recording storage)) (getStructure storage)
           (λ r evs, clean r evs ∧
              ∀ structure, r = inr structure → structure_log structure evs).
Proof.
  rewrite !getStructure_steps.
  eapply (observed_bind _ _ _ _
    (λ r evs, evs = [(pragmaTableListQuery, r)])
    (λ tables, loop_post table_log tables)).
  - by apply observed_exec.
  - intros tables. apply observed_map_array, table_step_observed.
  - intros e evs ->. split; [apply clean_call|]. intros ? [=].
  - intros tables evs1 r evs2 -> [Hc Hlog]. split.
    + eapply (clean_app tables); [apply answered_call|done].
    + intros structure ->. exists tables, evs2. eauto.
Qed.
End run_log.

(** ** Runs whose result does not depend on the state *)

Section state_independent_rules.
Context {S E : Type}.

Lemma state_independent_ret {A} (a : A) : state_independent (S:=S) (E:=E) (ret a).
Proof. done. Qed.

Lemma state_independent_bind {A B} (m : M S E A) (k : A → M S E B) :
  state_independent m → (∀ a, state_independent (k a)) →
  state_independent (bind m k).
Proof.
  intros Hm Hk s s'. specialize (Hm s s'). unfold bind.
  destruct (m s) as [[e|a] s1], (m s') as [[e'|a'] s1']; simpl in *;
    simplify_eq; [done|apply Hk].
Qed.

Lemma state_independent_map_array {A B} (f : A → M S E B) l :
  (∀ x, state_independent (f x)) → state_independent (map_array f l).
Proof.
  intros Hf. induction l as [|x l IH]; simpl; [done|].
  apply state_independent_bind; [done|]. intros y.
  apply state_independent_bind; [done|]. intros ys.
  apply state_independent_ret.
Qed.

Lemma state_independent_exec (storage : Storage S E) q :
  deterministic storage → state_independent (exec storage q).
Proof. intros Hdet s s'. apply Hdet. Qed.

Lemma getStructure_state_independent (storage : Storage S E) :
  deterministic storage → state_independent (getStructure storage).
Proof.
  intros Hdet. rewrite getStructure_steps.
  pose proof (λ q, state_independent_exec storage q Hdet) as Hexec.
  apply state_independent_bind; [done|]. intros tables.
  apply state_independent_map_array. intros table.
  apply state_independent_bind; [|intros ixs].
  - apply state_independent_bind; [done|]. intros rows.
    apply state_independent_map_array. intros index.
    apply state_independent_bind; [done|]. intros cols.
    apply state_independent_ret.
  - apply state_independent_bind; [|intros; apply state_independent_ret].
    apply state_independent_bind; [done|]. intros rows.
    apply state_independent_ret.
Qed.
End state_independent_rules.

(** ** The run over a stateless storage *)

Section stateless_run.
Context {S E : Type} (db : Query → E + list Row).

Lemma map_array_stateless {A B} (f : A → M S E B) (P : A → B → Prop) l :
  (∀ x s y, (f x s).1 = inr y ↔ P x y) →
  (∀ x s, (f x s).2 = s) →
  ∀ s, (map_array f l s).2 = s ∧
       ∀ k, (map_array f l s).1 = inr k ↔ Forall2 P l k.
Proof.
  intros HP Hs. induction l as [|x l IH]; intros s; simpl.
  - split; [done|]. intros k. split.
    + intros [= <-]. constructor.
    + by inv 1.
  - unfold bind. specialize (HP x s). specialize (Hs x s).
    destruct (f x s) as [[e|y] s1]; simpl in *; subst s1.
    + split; [done|]. intros k. split; [done|].
      inv 1. by match goal with H : P _ _ |- _ => apply HP in H end.
    + destruct (IH s) as [IHs IHk].
      destruct (map_array f l s) as [[e|ys] s1]; simpl in *; subst s1.
      * split; [done|]. intros k. split; [done|].
        inv 1. by match goal with H : Forall2 _ _ _ |- _ => apply IHk in H end.
      * split; [done|]. intros k. split.
        -- intros [= <-]. constructor; [by apply HP|by apply IHk].
        -- inv 1.
           match goal with H : P _ _ |- _ => apply HP in H as [= ->] end.
           match goal with H : Forall2 _ _ _ |- _ => apply IHk in H as [= ->] end.
           done.
Qed.

Lemma exec_stateless q (s : S) : exec (stateless db) q s = (db q, s).
Proof. done. Qed.

Lemma index_step_stateless table index (s : S) :
  (index_step (stateless db) table index s).2 = s ∧
  ∀ ix, (index_step (stateless db) table index s).1 = inr ix ↔
        index_of db table index ix.
Proof.
  unfold index_step, index_of.
  destruct (db (indexInfoQuery table index)) as [e|cols] eqn:Hdb.
  - rewrite (bind_inl _ _ s e s) by by rewrite exec_stateless, Hdb.
    split; [done|]. intros ix. split; [done|]. by intros (? & ? & ?).
  - rewrite (bind_inr _ _ s cols s) by by rewrite exec_stateless, Hdb.
    split; [done|]. intros ix. split.
    + intros [= <-]. eauto.
    + by intros (? & [= <-] & ->).
Qed.

Lemma table_step_stateless table (s : S) :
  (table_step (stateless db) table s).2 = s ∧
  ∀ t, (table_step (stateless db) table s).1 = inr t ↔ table_of db table t.
Proof.
  unfold table_step, table_of.
  destruct (db (indexListQuery table))
    as [e|indexRows] eqn:Hil.
  { rewrite (bind_inl _ _ s e s).
    2: { apply bind_inl. by rewrite exec_stateless, Hil. }
    split; [done|]. intros t. split; [done|]. by intros (?&?&?&?&?). }
  destruct (map_array_stateless (index_step (stateless db) table)
    (index_of db table) indexRows
    (λ x s, proj2 (index_step_stateless table x s))
    (λ x s, proj1 (index_step_stateless table x s)) s) as [Hs Hk].
  destruct (map_array (index_step (stateless db) table) indexRows s)
    as [[e|ixs] s1] eqn:Hloop; simpl in *; subst s1.
  { rewrite (bind_inl _ _ s e s).
    2: { rewrite (bind_inr _ _ s indexRows s); [done|].
         by rewrite exec_stateless, Hil. }
    split; [done|]. intros t. split; [done|].
    intros (?&?&?&[= <-]&Hix&?). by apply Hk in Hix. }
  rewrite (bind_inr _ _ s ixs s).
  2: { rewrite (bind_inr _ _ s indexRows s); [done|].
       by rewrite exec_stateless, Hil. }
  destruct (db (tableInfoQuery table))
    as [e|columnRows] eqn:Hti.
  { rewrite (bind_inl _ _ s e s).
    2: { apply bind_inl. by rewrite exec_stateless, Hti. }
    split; [done|]. intros t. split; [done|]. by intros (?&?&?&?&?&?&?). }
  rewrite (bind_inr _ _ s (map toColumn columnRows) s).
  2: { rewrite (bind_inr _ _ s columnRows s); [done|].
       by rewrite exec_stateless, Hti. }
  split; [done|]. intros t. split.
  - intros [= <-]. exists indexRows, ixs, columnRows.
    split_and!; [done|by apply Hk|done|done].
  - intros (?&?&?&[= <-]&Hix&[= <-]&->). by apply Hk in Hix as [= ->].
Qed.

Lemma getStructure_stateless (s : S) structure :
  (getStructure (stateless db) s).1 = inr structure ↔
  ∃ tables, db pragmaTableListQuery = inr tables ∧
            Forall2 (table_of db) tables structure.
Proof.
  rewrite getStructure_steps.
  destruct (db pragmaTableListQuery) as [e|tables] eqn:Htl.
  { rewrite (bind_inl _ _ s e s) by by rewrite exec_stateless, Htl.
    split; [done|]. by intros (?&?&?). }
  rewrite (bind_inr _ _ s tables s) by by rewrite exec_stateless, Htl.
  destruct (map_array_stateless (table_step (stateless db)) (table_of db) tables
    (λ x s, proj2 (table_step_stateless x s))
    (λ x s, proj1 (table_step_stateless x s)) s) as [_ Hk].
  rewrite Hk. split; [eauto|]. by intros (?&[= <-]&?).
Qed.
End stateless_run.

(** ** The log and the result of a call *)

Section calls.
Context {S E : Type} (storage : Storage S E).

Lemma recording_run (s : S) :
  getStructure (recording storage) ([], s) =
    (result storage s, (calls storage s, (getStructure storage s).2)) ∧
  clean (result storage s) (calls storage s) ∧
  ∀ structure, result storage s = inr structure →
    structure_log structure (calls storage s).
Proof.
  destruct (getStructure_observed storage [] s) as (evs & Hrun & Hclean & Hlog).
  unfold calls, result. rewrite Hrun. simpl. done.
Qed.

Lemma index_log_queries table indexRows ixs (evs : list (Event E)) :
  loop_log (index_log table) indexRows ixs evs →
  evs.*1 = indexInfoQuery table <$> indexRows.
Proof.
  induction 1 as [|index ix evs l k evs' (cols & -> & _) _ IH]; [done|].
  rewrite fmap_app, IH. done.
Qed.

Lemma table_log_queries tables structure (evs : list (Event E)) :
  loop_log table_log tables structure evs →
  ∃ indexRowss,
    length indexRowss = length tables ∧
    Forall2 (λ table indexRows, (indexListQuery table, inr indexRows) ∈ evs)
      tables indexRowss ∧
    evs.*1 = concat (zip_with table_queries tables indexRowss).
Proof.
  induction 1 as [|table t evs l k evs' Ht _ IH].
  { exists []. split_and!; [done|constructor|done]. }
  destruct Ht as (indexRows & ixs & ievs & columnRows & Hix & -> & _).
  destruct IH as (indexRowss & Hlen & Hin & Hq).
  exists (indexRows :: indexRowss). split_and!.
  - simpl. by rewrite Hlen.
  - constructor.
    + set_solver.
    + eapply Forall2_impl; [done|]. set_solver.
  - simpl. rewrite fmap_app, Hq. unfold table_queries. simpl.
    rewrite fmap_app, (index_log_queries _ _ _ _ Hix). simpl.
    by rewrite <-(assoc_L (++)).
Qed.
End calls.

(** * The properties of [getStructure] *)

(** ** Determinism *)

(** C1.  For a deterministic storage, two calls of [getStructure] in a row
    give equal results: the same tables in the same order, with equal
    fields at every level (or, twice, the same error). *)
Theorem getStructure_twice_equal {S E} (storage : Storage S E) (s : S) :
  deterministic storage →
  (twice (getStructure storage) s).1 = (twice (getStructure storage) s).2.
Proof.
  intros Hdet. unfold twice. simpl.
  apply getStructure_state_independent, Hdet.
Qed.

Lemma getStructure_twice_equal_witness :
  deterministic (Sample.counting (Sample.flagged (integer 1))) ∧
  (twice (getStructure (Sample.counting (Sample.flagged (integer 1)))) 0).1
  = (twice (getStructure (Sample.counting (Sample.flagged (integer 1)))) 0).2.
Proof.
  split.
  - intros q s s'. reflexivity.
  - apply (getStructure_twice_equal
             (Sample.counting (Sample.flagged (integer 1))) 0).
    intros q s s'. reflexivity.
Defined.

(** ** Failure *)

(** C7.  When a call of the storage fails during [getStructure], that call
    is the last one made, every call before it was answered, and the
    result of [getStructure] is the error of that call, as it was thrown:
    no structure is returned. *)
Theorem failure_aborts {S E} (storage : Storage S E) (s : S) i q e :
  calls storage s !! i = Some (q, inl e) →
  result storage s = inl e ∧
  calls storage s = take i (calls storage s) ++ [(q, inl e)] ∧
  Forall answered (take i (calls storage s)).
Proof.
  intros Hi. destruct (recording_run storage s) as (_ & Hclean & _).
  destruct (result storage s) as [e'|structure]; simpl in Hclean.
  - destruct Hclean as (evs0 & q' & Hcalls & Hans). rewrite Hcalls in *.
    destruct (decide (i < length evs0)) as [Hlt|Hge].
    + rewrite lookup_app_l in Hi by done.
      rewrite Forall_forall in Hans.
      destruct (Hans _ (list_elem_of_lookup_2 _ _ _ Hi)) as [rows [=]].
    + rewrite lookup_app_r in Hi by lia.
      destruct (i - length evs0) as [|n] eqn:Hn; [|by destruct n].
      simplify_eq/=. assert (i = length evs0) as -> by lia.
      by rewrite take_app_length.
  - rewrite Forall_forall in Hclean.
    destruct (Hclean _ (list_elem_of_lookup_2 _ _ _ Hi)) as [rows [=]].
Qed.

Lemma failure_aborts_witness :
  calls (S:=unit) (stateless Sample.broken) tt !! 2
    = Some (indexInfoQuery (Sample.table_row (integer 1))
              (Sample.index_row (integer 1)), inl "disk I/O error") ∧
  result (S:=unit) (stateless Sample.broken) tt = inl "disk I/O error" ∧
  calls (S:=unit) (stateless Sample.broken) tt
    = take 2 (calls (S:=unit) (stateless Sample.broken) tt)
      ++ [(indexInfoQuery (Sample.table_row (integer 1))
             (Sample.index_row (integer 1)), inl "disk I/O error")] ∧
  Forall answered (take 2 (calls (S:=unit) (stateless Sample.broken) tt)).
Proof.
  split; [vm_compute; reflexivity|].
  apply (failure_aborts (S:=unit) (stateless Sample.broken) tt 2).
  vm_compute. reflexivity.
Defined.

(** ** The order of the queries *)

(** C9, as the code has it.  A call that returns a structure has issued
    the table-list query first and then, table after table in the order of
    its rows: the index-list query of the table, one index-column query for
    each row of that index list, in order, and only then the column-list
    query of the table. *)
Theorem query_order {S E} (storage : Storage S E) (s : S) structure :
  result storage s = inr structure →
  ∃ tables indexRowss,
    calls storage s !! 0 = Some (pragmaTableListQuery, inr tables) ∧
    length indexRowss = length tables ∧
    Forall2 (λ table indexRows,
               (indexListQuery table, inr indexRows) ∈ calls storage s)
      tables indexRowss ∧
    (calls storage s).*1 =
      pragmaTableListQuery :: concat (zip_with table_queries tables indexRowss).
Proof.
  intros Hres. destruct (recording_run storage s) as (_ & _ & Hlog).
  destruct (Hlog _ Hres) as (tables & tevs & -> & Hloop).
  destruct (table_log_queries _ _ _ Hloop) as (indexRowss & Hlen & Hin & Hq).
  exists tables, indexRowss. split_and!; [done|done| |by rewrite fmap_cons, Hq].
  eapply Forall2_impl; [done|]. set_solver.
Qed.

Lemma query_order_witness :
  result (S:=unit) (stateless (Sample.flagged (integer 1))) tt
    = inr [Sample.flagged_table true] ∧
  ∃ tables indexRowss,
    calls (S:=unit) (stateless (Sample.flagged (integer 1))) tt !! 0
      = Some (pragmaTableListQuery, inr tables) ∧
    length indexRowss = length tables ∧
    Forall2 (λ table indexRows,
               (indexListQuery table, inr indexRows)
               ∈ calls (S:=unit) (stateless (Sample.flagged (integer 1))) tt)
      tables indexRowss ∧
    (calls (S:=unit) (stateless (Sample.flagged (integer 1))) tt).*1 =
      pragmaTableListQuery :: concat (zip_with table_queries tables indexRowss).
Proof.
  split; [vm_compute; reflexivity|].
  eapply (query_order (S:=unit) (stateless (Sample.flagged (integer 1))) tt).
  vm_compute. reflexivity.
Defined.

(** The four queries of a call over one table with one index. *)
Example flagged_queries :
  (calls (S:=unit) (stateless (Sample.flagged (integer 1))) tt).*1 =
  [ pragmaTableListQuery;
    indexListQuery (Sample.table_row (integer 1));
    indexInfoQuery (Sample.table_row (integer 1)) (Sample.index_row (integer 1));
    tableInfoQuery (Sample.table_row (integer 1)) ].
Proof. vm_compute. reflexivity. Qed.

(** C9, as it is stated, fails: the index-column query of the index [i] of
    the table [t] is not issued after the column-list query of [t]. *)
Lemma column_list_not_first :
  ¬ issued_before
      (calls (S:=unit) (stateless (Sample.flagged (integer 1))) tt).*1
      (tableInfoQuery (Sample.table_row (integer 1)))
      (indexInfoQuery (Sample.table_row (integer 1))
                      (Sample.index_row (integer 1))).
Proof.
  intros (i & j & Hi & Hj & Hlt).
  destruct j as [|[|[|j]]]; [vm_compute in Hj; discriminate..| |].
  - destruct i as [|[|i]]; [vm_compute in Hi; discriminate..|lia].
  - destruct j; vm_compute in Hj; discriminate.
Qed.

(** ** Rows and what is made of them *)

Section rows.
Context {S E : Type} (db : Query → E + list Row) (s : S).

Lemma result_stateless structure tables :
  result (stateless db) s = inr structure →
  db pragmaTableListQuery = inr tables →
  Forall2 (table_of db) tables structure.
Proof.
  intros Hres Htl. apply getStructure_stateless in Hres as (tables' & Htl' & H).
  rewrite Htl in Htl'. by simplify_eq.
Qed.

Lemma table_of_columns table t columnRows (P : Row → Column → Prop) :
  table_of db table t →
  (∀ column, P column (toColumn column)) →
  db (tableInfoQuery table) = inr columnRows →
  Forall2 P columnRows (columns t).
Proof.
  intros (indexRows & ixs & columnRows' & _ & _ & Hti & ->) HP Hti'.
  rewrite Hti in Hti'. simplify_eq/=.
  apply Forall2_fmap_r, Forall_Forall2_diag, Forall_forall. eauto.
Qed.

Lemma table_of_indexes table t indexRows (P : Row → Index → Prop) :
  table_of db table t →
  (∀ index cols, P index (toIndex index cols)) →
  db (indexListQuery table) = inr indexRows →
  Forall2 P indexRows (indexes t).
Proof.
  intros (indexRows' & ixs & columnRows & Hil & Hix & _ & ->) HP Hil'.
  rewrite Hil in Hil'. simplify_eq/=. eapply Forall2_impl; [done|].
  intros index ix (cols & _ & ->). apply HP.
Qed.
End rows.

(** ** Flags *)

Lemma number_is_Z_of_Z z : number_is_Z (number_of_Z z) z.
Proof. destruct z; simpl; by rewrite ?Pos.mul_1_r. Qed.

Lemma encodes_integer z : encodes (Some (integer z)) z.
Proof. eexists. split; [done|apply number_is_Z_of_Z]. Qed.

(** The double 2, written with a mantissa of 53 bits. *)
Example two_normalized :
  number_is_Z (S754_finite false 4503599627370496 (-51)) 2.
Proof. reflexivity. Qed.

Lemma number_truthy_is_Z n z :
  number_is_Z n z → number_truthy n = negb (z =? 0)%Z.
Proof.
  destruct n as [sign|sign| |sign m e]; simpl; [by intros ->|done..|].
  intros Hz. destruct (Z.eqb_spec z 0) as [->|]; [|done].
  assert (0 < 2 ^ Z.max 0 e)%Z by (apply Z.pow_pos_nonneg; lia).
  destruct sign; nia.
Qed.

Lemma truthy_false v : truthy (Some v) = false ↔ falsy v.
Proof.
  unfold falsy. split.
  - destruct v as [str|n|]; simpl; intros Hv.
    + destruct (String.eqb_spec str "") as [Hstr|]; [|done].
      rewrite Hstr. auto.
    + destruct n; try done; [right; right; left; eauto|auto].
    + auto.
  - by intros [->|[->|[[sign ->]| ->]]].
Qed.

Lemma truthy_flag_of_integer v : flag_of_integer v (truthy v).
Proof. intros z (n & -> & Hn). by apply number_truthy_is_Z. Qed.

Lemma truthy_flag_of_value v : flag_of_value v (truthy v).
Proof.
  split_and!.
  - by intros ->.
  - intros str -> Hne. simpl. by destruct (String.eqb_spec str "").
  - intros x ->. apply truthy_false.
Qed.

Lemma flags_of_rows {S E} (flag : JsVal → bool → Prop)
    (db : Query → E + list Row) (s : S) structure tables :
  (∀ v, flag v (truthy v)) →
  result (stateless db) s = inr structure →
  db pragmaTableListQuery = inr tables →
  Forall2 (row_flags flag db) tables structure.
Proof.
  intros Hflag Hres Htl. eapply Forall2_impl; [by eapply result_stateless|].
  intros table t Ht. split_and!.
  - destruct Ht as (?&?&?&_&_&_&->). apply Hflag.
  - destruct Ht as (?&?&?&_&_&_&->). apply Hflag.
  - intros columnRows. apply (table_of_columns db table t); [done|].
    intros column. apply Hflag.
  - intros indexRows. apply (table_of_indexes db table t); [done|].
    intros index cols. split; apply Hflag.
Qed.

(** C4.  Row by row, each flag of the structure is true exactly when the
    integer its field holds is not zero: the table's [withoutRowid] and
    [strict], the column's [notNull], the index's [unique] and [partial].
    So 2 gives true as 1 does, and 0 gives false. *)
Theorem flags_coerced {S E} (db : Query → E + list Row) (s : S) structure tables :
  result (stateless db) s = inr structure →
  db pragmaTableListQuery = inr tables →
  Forall2 (row_flags flag_of_integer db) tables structure.
Proof. apply flags_of_rows, truthy_flag_of_integer. Qed.

Lemma flags_coerced_witness :
  result (S:=unit) (stateless (Sample.flagged (integer 2))) tt
    = inr [Sample.flagged_table true] ∧
  Sample.flagged (integer 2) pragmaTableListQuery
    = inr [Sample.table_row (integer 2)] ∧
  Forall2 (row_flags flag_of_integer (Sample.flagged (integer 2)))
    [Sample.table_row (integer 2)]
    [Sample.flagged_table true].
Proof.
  split_and!; [reflexivity..|].
  apply (flags_coerced (S:=unit) (Sample.flagged (integer 2)) tt);
    reflexivity.
Defined.

(** The flags of a table whose fields hold 2, and of one whose fields
    hold 0. *)
Example flags_of_two :
  result (S:=unit) (stateless (Sample.flagged (integer 2))) tt
  = inr [Sample.flagged_table true].
Proof. vm_compute. reflexivity. Qed.

Example flags_of_zero :
  result (S:=unit) (stateless (Sample.flagged (integer 0))) tt
  = inr [Sample.flagged_table false].
Proof. vm_compute. reflexivity. Qed.

(** C10, as the code has it.  Row by row, each flag of the structure is
    the truthiness of its field: null gives false, a string other than the
    empty one gives true (the string "0" too), and the values that give
    false are null, the empty string, the number 0 of either sign and
    NaN. *)
Theorem flags_are_truthiness {S E} (db : Query → E + list Row) (s : S)
    structure tables :
  result (stateless db) s = inr structure →
  db pragmaTableListQuery = inr tables →
  Forall2 (row_flags flag_of_value db) tables structure.
Proof. apply flags_of_rows, truthy_flag_of_value. Qed.

Lemma flags_are_truthiness_witness :
  result (S:=unit) (stateless (Sample.flagged (VString "0"))) tt
    = inr [Sample.flagged_table true] ∧
  Sample.flagged (VString "0") pragmaTableListQuery
    = inr [Sample.table_row (VString "0")] ∧
  Forall2 (row_flags flag_of_value (Sample.flagged (VString "0")))
    [Sample.table_row (VString "0")]
    [Sample.flagged_table true].
Proof.
  split_and!; [reflexivity..|].
  apply (flags_are_truthiness (S:=unit) (Sample.flagged (VString "0")) tt);
    reflexivity.
Defined.

(** C10, as it is stated, fails: a flag delivered as NaN comes out false,
    and NaN is neither the number 0, nor null, nor the empty string. *)
Lemma nan_flag_is_false :
  ¬ (∀ v t, result (S:=unit) (stateless (Sample.flagged v)) tt = inr [t] →
            withoutRowid t = false → zero_null_or_empty v).
Proof.
  intros Hclaim.
  destruct (Hclaim (VNumber NaN)
    (Sample.flagged_table false))
    as [?|[?|[sign ?]]]; try done; vm_compute; reflexivity.
Qed.

(** The flags of a table whose fields hold the string "0", and of one
    whose fields hold NaN. *)
Example flags_of_string_zero :
  result (S:=unit) (stateless (Sample.flagged (VString "0"))) tt
  = inr [Sample.flagged_table true].
Proof. vm_compute. reflexivity. Qed.

Example flags_of_nan :
  result (S:=unit) (stateless (Sample.flagged (VNumber NaN))) tt
  = inr [Sample.flagged_table false].
Proof. vm_compute. reflexivity. Qed.

(** ** The primary-key ordinal *)

(** C5.  Row by row, the [primaryKey] of a column of the structure is the
    [pk] field of its row, as the storage delivered it: the integer 0 stays
    0, and an ordinal i stays i. *)
Theorem primary_key_preserved {S E} (db : Query → E + list Row) (s : S)
    structure tables :
  result (stateless db) s = inr structure →
  db pragmaTableListQuery = inr tables →
  Forall2 (row_primary_keys db) tables structure.
Proof.
  intros Hres Htl. eapply Forall2_impl; [by eapply result_stateless|].
  intros table t Ht columnRows. apply (table_of_columns db table t); [done|].
  intros column. by split.
Qed.

Lemma primary_key_preserved_witness :
  result (S:=unit) (stateless (Sample.flagged (integer 1))) tt
    = inr [Sample.flagged_table true] ∧
  Sample.flagged (integer 1) pragmaTableListQuery
    = inr [Sample.table_row (integer 1)] ∧
  Forall2 (row_primary_keys (Sample.flagged (integer 1)))
    [Sample.table_row (integer 1)]
    [Sample.flagged_table true].
Proof.
  split_and!; [reflexivity..|].
  apply (primary_key_preserved (S:=unit) (Sample.flagged (integer 1)) tt);
    reflexivity.
Defined.

(** ** Bound parameters *)

(** C8.  The text of the three queries made for a table or an index is a
    constant, the same whatever the name and the schema; the name and the
    schema are the two bound values of the query, in that order. *)
Theorem name_and_schema_are_bound (object : Named) :
  pragmaTableInfoQuery object
    = {| sql := String.concat "?" pragmaTableInfoStrings;
         values := [named_name object; named_schema object] |} ∧
  pragmaIndexListQuery object
    = {| sql := String.concat "?" pragmaIndexListStrings;
         values := [named_name object; named_schema object] |} ∧
  pragmaIndexInfoQuery object
    = {| sql := String.concat "?" pragmaIndexInfoStrings;
         values := [named_name object; named_schema object] |}.
Proof. done. Qed.

(** A name that holds a quote is bound as it is; the text is that of the
    query for any other name. *)
Example quoted_name_is_bound :
  pragmaTableInfoQuery
    {| named_name := Some (VString "t'); drop table t; --");
       named_schema := Some (VString "main") |}
  = {| sql := sql (pragmaTableInfoQuery
                     {| named_name := Some (VString "t");
                        named_schema := Some (VString "main") |});
       values := [Some (VString "t'); drop table t; --");
                  Some (VString "main")] |}.
Proof. reflexivity. Qed.

(** ** The order of text *)

Lemma string_compare_refl a : String.compare a a = Eq.
Proof.
  induction a as [|c a IH]; simpl; [done|].
  unfold Ascii.compare. by rewrite N.compare_refl.
Qed.

Lemma string_compare_lt_trans a b c :
  String.compare a b = Lt → String.compare b c = Lt → String.compare a c = Lt.
Proof. apply (transitivity (R:=OrdersEx.String_as_OT.lt)). Qed.

Lemma text_leb_total a b : Engine.text_leb a b ∨ Engine.text_leb b a.
Proof.
  unfold Engine.text_leb.
  destruct (String.leb_total a b) as [->| ->]; [by left|by right].
Qed.

Lemma text_leb_trans a b c :
  Engine.text_leb a b → Engine.text_leb b c → Engine.text_leb a c.
Proof.
  unfold Engine.text_leb, String.leb.
  destruct (String.compare a b) eqn:Hab; [| |done];
    destruct (String.compare b c) eqn:Hbc; try done; intros _ _.
  - apply String.compare_eq_iff in Hab, Hbc. subst.
    by rewrite string_compare_refl.
  - apply String.compare_eq_iff in Hab. subst. by rewrite Hbc.
  - apply String.compare_eq_iff in Hbc. subst. by rewrite Hab.
  - by rewrite (string_compare_lt_trans a b c).
Qed.

Lemma text_leb_antisym a b :
  Engine.text_leb a b → Engine.text_leb b a → a = b.
Proof.
  unfold Engine.text_leb. intros Hab Hba.
  apply String.leb_antisym; by apply Is_true_true.
Qed.

Lemma table_list_order_total r1 r2 :
  Engine.table_list_order r1 r2 ∨ Engine.table_list_order r2 r1.
Proof.
  unfold Engine.table_list_order.
  rewrite (String.compare_antisym (Engine.tl_schema r2)).
  destruct (String.compare (Engine.tl_schema r1) (Engine.tl_schema r2));
    simpl; [apply text_leb_total|by left|by right].
Qed.

Lemma table_list_order_trans r1 r2 r3 :
  Engine.table_list_order r1 r2 → Engine.table_list_order r2 r3 →
  Engine.table_list_order r1 r3.
Proof.
  unfold Engine.table_list_order.
  destruct (String.compare (Engine.tl_schema r1) (Engine.tl_schema r2))
    eqn:H12; [| |done];
    destruct (String.compare (Engine.tl_schema r2) (Engine.tl_schema r3))
      eqn:H23; try done.
  - apply String.compare_eq_iff in H12, H23. rewrite H12, H23.
    rewrite string_compare_refl. apply text_leb_trans.
  - apply String.compare_eq_iff in H12. by rewrite H12, H23.
  - apply String.compare_eq_iff in H23. by rewrite <-H23, H12.
  - by rewrite (string_compare_lt_trans _ _ _ H12 H23).
Qed.

Lemma index_info_order_total r1 r2 :
  Engine.index_info_order r1 r2 ∨ Engine.index_info_order r2 r1.
Proof.
  unfold Engine.index_info_order.
  destruct (Z.le_ge_cases (Engine.ii_seqno r1) (Engine.ii_seqno r2));
    [left|right]; by apply Is_true_true, Z.leb_le.
Qed.

Lemma index_info_order_trans r1 r2 r3 :
  Engine.index_info_order r1 r2 → Engine.index_info_order r2 r3 →
  Engine.index_info_order r1 r3.
Proof.
  unfold Engine.index_info_order. rewrite !Is_true_true, !Z.leb_le. lia.
Qed.

(** ** [order by] *)

Section order_by.
Context {A : Type} (leb : A → A → bool).
Hypothesis leb_total : ∀ x y, leb x y ∨ leb y x.
Hypothesis leb_trans : ∀ x y z, leb x y → leb y z → leb x z.

Lemma order_by_sorted l :
  StronglySorted (λ r1 r2, Is_true (leb r1 r2)) (Engine.order_by leb l).
Proof.
  apply (@StronglySorted_merge_sort _ (λ r1 r2, Is_true (leb r1 r2)) _
           leb_trans leb_total).
Qed.

Lemma order_by_permutation l : Engine.order_by leb l ≡ₚ l.
Proof. apply merge_sort_Permutation. Qed.

Lemma elem_of_order_by l x : x ∈ Engine.order_by leb l ↔ x ∈ l.
Proof. by rewrite order_by_permutation. Qed.

(** The sorted list is the only sorted arrangement of the rows, when no two
    rows are level. *)
Lemma order_by_unique l k :
  (∀ x y, x ∈ l → y ∈ l → leb x y → leb y x → x = y) →
  l ≡ₚ k →
  StronglySorted (λ r1 r2, Is_true (leb r1 r2)) k →
  Engine.order_by leb l = k.
Proof.
  intros Hanti Hperm Hk.
  apply (StronglySorted_unique_strong (λ r1 r2, Is_true (leb r1 r2))).
  - intros x y Hx Hy. apply Hanti.
    + by apply elem_of_order_by.
    + by rewrite Hperm.
  - apply order_by_sorted.
  - done.
  - by rewrite order_by_permutation.
Qed.

(** Two lists of the same rows, up to their order and to what a projection
    [f] forgets, are the same once sorted and projected, when the order
    does not look at what [f] forgets and no two rows are level. *)
Lemma order_by_projected (f : A → A) l k :
  (∀ x y, leb (f x) (f y) = leb x y) →
  (∀ x y, x ∈ l → y ∈ l → leb x y → leb y x → f x = f y) →
  f <$> l ≡ₚ f <$> k →
  f <$> Engine.order_by leb l = f <$> Engine.order_by leb k.
Proof.
  intros Hf Hanti Hperm.
  assert (∀ l', StronglySorted (λ r1 r2, Is_true (leb r1 r2))
                  (f <$> Engine.order_by leb l')) as Hsorted.
  { intros l'. eapply StronglySorted_fmap; [|apply order_by_sorted].
    intros x y. by rewrite Hf. }
  apply (StronglySorted_unique_strong (λ r1 r2, Is_true (leb r1 r2)));
    [|done..|by rewrite !order_by_permutation].
  intros b1 b2 Hb1 Hb2.
  rewrite order_by_permutation in Hb1. rewrite order_by_permutation in Hb2.
  rewrite <-Hperm in Hb2.
  apply list_elem_of_fmap in Hb1 as (x & -> & Hx), Hb2 as (y & -> & Hy).
  rewrite !Hf. by apply Hanti.
Qed.
End order_by.

Lemma NoDup_fmap_elem_of {A B} (f : A → B) l x y :
  NoDup (f <$> l) → x ∈ l → y ∈ l → f x = f y → x = y.
Proof.
  induction l as [|a l IH]; [by inv 2|].
  rewrite fmap_cons, NoDup_cons. intros [Ha Hl] Hx Hy Hf.
  apply elem_of_cons in Hx as [->|Hx], Hy as [->|Hy]; [done|..|by apply IH].
  - destruct Ha. rewrite Hf. by apply list_elem_of_fmap_2.
  - destruct Ha. rewrite <-Hf. by apply list_elem_of_fmap_2.
Qed.

Lemma key_order_elem_of key x y :
  StronglySorted Engine.key_order key → x ∈ key → y ∈ key →
  Engine.ii_seqno x = Engine.ii_seqno y → x = y.
Proof.
  unfold Engine.key_order.
  induction 1 as [|a key _ IH Ha]; [by inv 1|].
  rewrite Forall_forall in Ha. intros Hx Hy Heq.
  apply elem_of_cons in Hx as [->|Hx], Hy as [->|Hy]; [done|..|by apply IH].
  - specialize (Ha _ Hy). lia.
  - specialize (Ha _ Hx). lia.
Qed.

(** ** LIKE *)

Lemma like_percent cs s : Engine.like cs "%" s = true.
Proof. induction s as [|c s IH]; [done|]. simpl in *. by rewrite IH. Qed.

Lemma like_temp cs : Engine.like cs "temp" "temp" = true.
Proof. by destruct cs. Qed.

Lemma like_sqlite_prefix cs s :
  String.prefix "sqlite_" s = true → Engine.like cs "sqlite_%" s = true.
Proof.
  intros Hs.
  do 7 (destruct s as [|? s]; cbn [String.prefix] in Hs; [done|];
        destruct (ascii_dec _ _) as [<-|]; [|done]).
  pose proof (like_percent cs s) as Hlike. by destruct cs.
Qed.

(** ** The text of the statements, read *)

Lemma parse_table_list :
  Engine.parse (sql pragmaTableListQuery)
  = Some {| Engine.sel_columns := ["schema"; "name"; "type"; "wr"; "strict"];
            Engine.sel_from := "pragma_table_list";
            Engine.sel_params := 0;
            Engine.sel_where :=
              [ Engine.Build_Condition true "schema" "temp";
                Engine.Build_Condition true "name" "sqlite_%" ];
            Engine.sel_order := ["schema"; "name"] |}.
Proof. vm_compute. reflexivity. Qed.

Lemma parse_table_info table :
  Engine.parse (sql (pragmaTableInfoQuery table))
  = Some {| Engine.sel_columns :=
              ["name"; "type"; "notnull"; "dflt_value"; "pk"];
            Engine.sel_from := "pragma_table_info";
            Engine.sel_params := 2;
            Engine.sel_where := [];
            Engine.sel_order := ["name"] |}.
Proof. vm_compute. reflexivity. Qed.

Lemma parse_index_list table :
  Engine.parse (sql (pragmaIndexListQuery table))
  = Some {| Engine.sel_columns := ["name"; "unique"; "origin"; "partial"];
            Engine.sel_from := "pragma_index_list";
            Engine.sel_params := 2;
            Engine.sel_where := [];
            Engine.sel_order := ["name"] |}.
Proof. vm_compute. reflexivity. Qed.

Lemma parse_index_info index :
  Engine.parse (sql (pragmaIndexInfoQuery index))
  = Some {| Engine.sel_columns := ["name"];
            Engine.sel_from := "pragma_index_info";
            Engine.sel_params := 2;
            Engine.sel_where := [];
            Engine.sel_order := ["seqno"] |}.
Proof. vm_compute. reflexivity. Qed.

(** ** Sorting by two orders that agree *)

Section merge_sort_ext.
Context {A : Type} (R1 R2 : relation A).
Context `{!∀ x y, Decision (R1 x y)} `{!∀ x y, Decision (R2 x y)}.
Hypothesis R_iff : ∀ x y, R1 x y ↔ R2 x y.

Lemma list_merge_ext l1 l2 : list_merge R1 l1 l2 = list_merge R2 l1 l2.
Proof.
  revert l2. induction l1 as [|x1 l1 IH1]; intros l2; [by destruct l2|].
  induction l2 as [|x2 l2 IH2]; [done|]. simpl.
  destruct (decide (R1 x1 x2)) as [H1|H1], (decide (R2 x1 x2)) as [H2|H2].
  - by rewrite IH1.
  - by apply R_iff in H1.
  - by apply R_iff in H2.
  - f_equal. apply IH2.
Qed.

Lemma merge_list_to_stack_ext st l :
  merge_list_to_stack R1 st l = merge_list_to_stack R2 st l.
Proof.
  revert l. induction st as [|[l'|] st IH]; intros l; simpl; [done| |done].
  by rewrite list_merge_ext, IH.
Qed.

Lemma merge_stack_ext st : merge_stack R1 st = merge_stack R2 st.
Proof.
  induction st as [|[l|] st IH]; simpl; [done| |done].
  by rewrite list_merge_ext, IH.
Qed.

Lemma merge_sort_aux_ext st l :
  merge_sort_aux R1 st l = merge_sort_aux R2 st l.
Proof.
  revert st. induction l as [|x l IH]; intros st; simpl.
  - apply merge_stack_ext.
  - by rewrite merge_list_to_stack_ext, IH.
Qed.

Lemma merge_sort_ext l : merge_sort R1 l = merge_sort R2 l.
Proof. apply merge_sort_aux_ext. Qed.
End merge_sort_ext.

Lemma order_by_ext {A} (leb1 leb2 : A → A → bool) l :
  (∀ x y, leb1 x y = leb2 x y) →
  Engine.order_by leb1 l = Engine.order_by leb2 l.
Proof.
  intros Hleb. apply merge_sort_ext. intros x y. by rewrite Hleb.
Qed.

Lemma filter_all {A} (P : A → Prop) `{!∀ x, Decision (P x)} (l : list A) :
  (∀ x, P x) → filter P l = l.
Proof.
  intros HP. induction l as [|x l IH]; [done|].
  by rewrite filter_cons_True, IH.
Qed.

(** What [select_from] makes of a statement whose columns the function
    has. *)
Lemma select_from_resolved {A} cs (schema : Engine.Schema A) rows stmt
    cols conds order :
  Engine.resolve schema id (Engine.sel_columns stmt) = Some cols →
  Engine.resolve schema Engine.cond_column (Engine.sel_where stmt)
    = Some conds →
  Engine.resolve schema id (Engine.sel_order stmt) = Some order →
  Engine.select_from cs schema rows stmt
  = inr (Engine.project cols <$>
           Engine.ordered (snd <$> order)
             (filter (λ r, Is_true (Engine.conditions_hold cs conds r)) rows)).
Proof. unfold Engine.select_from. by intros -> -> ->. Qed.

Lemma string_leb_compare a b :
  Engine.text_leb a b
  = match String.compare a b with Gt => false | _ => true end.
Proof. done. Qed.

(** The table list: the rows the [where] clause keeps, in the order of
    [order by], each with the columns of the select list. *)
Lemma engine_table_list cat :
  Engine.engine cat pragmaTableListQuery
  = inr (Engine.table_list_select <$> Engine.listed_tables cat).
Proof.
  unfold Engine.engine. rewrite parse_table_list.
  change (values pragmaTableListQuery) with (@nil JsVal).
  cbn [Engine.sel_params Engine.sel_from length Nat.eqb negb].
  change (String.eqb (Engine.lowercase "pragma_table_list") "pragma_table_list")
    with true. cbv iota.
  erewrite select_from_resolved; [|reflexivity..].
  f_equal. unfold Engine.listed_tables.
  cbn [fmap list_fmap snd Engine.ordered].
  erewrite (order_by_ext _ Engine.table_list_order).
  - erewrite (list_filter_iff _
      (λ r, Is_true (Engine.table_list_where (Engine.case_sensitive_like cat) r))).
    + apply list_fmap_ext. intros _ r _. reflexivity.
    + intros r. unfold Engine.conditions_hold, Engine.condition_holds,
        Engine.table_list_where. simpl.
      by rewrite andb_true_r.
  - intros r1 r2. unfold Engine.rows_leb, Engine.table_list_order. simpl.
    rewrite string_leb_compare.
    by destruct (String.compare (Engine.tl_schema r1) (Engine.tl_schema r2)),
      (String.compare (Engine.tl_name r1) (Engine.tl_name r2)).
Qed.

(** The columns of a table, the indexes of a table and the key of an
    index: the rows of the function for the bound name and schema, in the
    order of [order by], each with the columns of the select list. *)
Lemma engine_table_info cat table :
  Engine.engine cat (pragmaTableInfoQuery table)
  = inr (Engine.table_info_select <$>
           Engine.order_by Engine.table_info_order
             (Engine.pragma_table_info cat (named_name table)
                (named_schema table))).
Proof.
  unfold Engine.engine. rewrite parse_table_info.
  change (values (pragmaTableInfoQuery table))
    with [named_name table; named_schema table].
  cbn [Engine.sel_params Engine.sel_from length Nat.eqb negb].
  change (String.eqb (Engine.lowercase "pragma_table_info") "pragma_table_info")
    with true. cbv iota.
  erewrite select_from_resolved; [|reflexivity..].
  f_equal. cbn [fmap list_fmap snd Engine.ordered].
  rewrite filter_all by done.
  erewrite (order_by_ext _ Engine.table_info_order).
  - apply list_fmap_ext. intros _ [cid name type notnull [dflt|] pk] _;
      reflexivity.
  - intros r1 r2. unfold Engine.rows_leb, Engine.table_info_order. simpl.
    rewrite string_leb_compare. by destruct (String.compare _ _).
Qed.

Lemma engine_index_list cat table :
  Engine.engine cat (pragmaIndexListQuery table)
  = inr (Engine.index_list_select <$>
           Engine.order_by Engine.index_list_order
             (Engine.pragma_index_list cat (named_name table)
                (named_schema table))).
Proof.
  unfold Engine.engine. rewrite parse_index_list.
  change (values (pragmaIndexListQuery table))
    with [named_name table; named_schema table].
  cbn [Engine.sel_params Engine.sel_from length Nat.eqb negb].
  change (String.eqb (Engine.lowercase "pragma_index_list") "pragma_table_info")
    with false.
  change (String.eqb (Engine.lowercase "pragma_index_list") "pragma_index_list")
    with true. cbv iota.
  erewrite select_from_resolved; [|reflexivity..].
  f_equal. cbn [fmap list_fmap snd Engine.ordered].
  rewrite filter_all by done.
  erewrite (order_by_ext _ Engine.index_list_order).
  - apply list_fmap_ext. intros _ r _. reflexivity.
  - intros r1 r2. unfold Engine.rows_leb, Engine.index_list_order. simpl.
    rewrite string_leb_compare. by destruct (String.compare _ _).
Qed.

Lemma engine_index_info cat index :
  Engine.engine cat (pragmaIndexInfoQuery index)
  = inr (Engine.index_info_select <$>
           Engine.order_by Engine.index_info_order
             (Engine.pragma_index_info cat (named_name index)
                (named_schema index))).
Proof.
  unfold Engine.engine. rewrite parse_index_info.
  change (values (pragmaIndexInfoQuery index))
    with [named_name index; named_schema index].
  cbn [Engine.sel_params Engine.sel_from length Nat.eqb negb].
  change (String.eqb (Engine.lowercase "pragma_index_info") "pragma_table_info")
    with false.
  change (String.eqb (Engine.lowercase "pragma_index_info") "pragma_index_list")
    with false.
  change (String.eqb (Engine.lowercase "pragma_index_info") "pragma_index_info")
    with true. cbv iota.
  erewrite select_from_resolved; [|reflexivity..].
  f_equal. cbn [fmap list_fmap snd Engine.ordered].
  rewrite filter_all by done.
  erewrite (order_by_ext _ Engine.index_info_order).
  - apply list_fmap_ext. intros _ [seqno cid [name|]] _; reflexivity.
  - intros r1 r2. unfold Engine.rows_leb, Engine.index_info_order. simpl.
    rewrite Z.leb_compare. by destruct (Z.compare _ _).
Qed.

(** ** [getStructure] over a database *)

Lemma truthy_integer z : truthy (Some (integer z)) = Engine.flag z.
Proof. apply number_truthy_is_Z, number_is_Z_of_Z. Qed.

Lemma toColumn_select r :
  toColumn (Engine.table_info_select r) = Engine.column_from r.
Proof.
  unfold toColumn, Engine.column_from. f_equal. apply truthy_integer.
Qed.

Lemma toIndex_select cat table r :
  index_of (Engine.engine cat) table (Engine.index_list_select r)
    (Engine.index_from cat (table !! "schema") r).
Proof.
  eexists. split; [apply engine_index_info|].
  unfold toIndex, Engine.index_from.
  f_equal; symmetry; apply truthy_integer.
Qed.

Lemma toTable_select cat r :
  table_of (Engine.engine cat) (Engine.table_list_select r)
    (Engine.table_from cat r).
Proof.
  exists (Engine.index_list_select <$>
            Engine.order_by Engine.index_list_order
              (Engine.pragma_index_list cat
                 (Some (Engine.text (Engine.tl_name r)))
                 (Some (Engine.text (Engine.tl_schema r))))),
         (Engine.index_from cat (Some (Engine.text (Engine.tl_schema r))) <$>
            Engine.order_by Engine.index_list_order
              (Engine.pragma_index_list cat
                 (Some (Engine.text (Engine.tl_name r)))
                 (Some (Engine.text (Engine.tl_schema r))))),
         (Engine.table_info_select <$>
            Engine.order_by Engine.table_info_order
              (Engine.pragma_table_info cat
                 (Some (Engine.text (Engine.tl_name r)))
                 (Some (Engine.text (Engine.tl_schema r))))).
  split_and!.
  - apply engine_index_list.
  - apply Forall2_fmap, Forall_Forall2_diag, Forall_forall. intros ix _.
    apply (toIndex_select cat (Engine.table_list_select r)).
  - apply engine_table_info.
  - unfold Engine.table_from, toTable.
    f_equal; try (symmetry; apply truthy_integer).
    rewrite <-list_fmap_compose. apply list_fmap_ext.
    intros i c _. symmetry. apply toColumn_select.
Qed.

(** Over a database [getStructure] returns, and returns the structure
    spelled out by [Engine.structure_of]. *)
Lemma describe_structure_of cat :
  Engine.describe cat = inr (Engine.structure_of cat).
Proof.
  apply (getStructure_stateless (S:=unit)). eexists.
  split; [apply engine_table_list|].
  apply Forall2_fmap, Forall_Forall2_diag, Forall_forall. intros r _.
  apply toTable_select.
Qed.

Lemma describe_inv cat structure :
  Engine.describe cat = inr structure → structure = Engine.structure_of cat.
Proof. rewrite describe_structure_of. by intros [= <-]. Qed.

(** A table of the structure comes from a listed row of the catalog. *)
Lemma describe_table cat structure t :
  Engine.describe cat = inr structure → t ∈ structure →
  ∃ r, r ∈ Engine.pragma_table_list cat ∧
       Engine.table_list_where (Engine.case_sensitive_like cat) r ∧
       t = Engine.table_from cat r.
Proof.
  intros ->%describe_inv Ht.
  apply list_elem_of_fmap in Ht as (r & -> & Hr).
  apply elem_of_order_by, list_elem_of_filter in Hr as [Hwhere Hr]. eauto.
Qed.

(** A database without tables has the empty structure. *)
Example empty_database : Engine.describe Sample.empty = inr [].
Proof. vm_compute. reflexivity. Qed.

(** A table [t (id integer primary key, name text not null)] with a unique
    index on [name]. *)
Example scenario_described :
  Engine.describe Sample.scenario = inr Sample.scenario_structure.
Proof. vm_compute. reflexivity. Qed.

(** ** Exclusion *)

(** C6.  Every table of the structure of a database is a row of the
    catalog whose schema is not the temporary schema and whose name does
    not start with [sqlite_]: no other row of the catalog appears. *)
Theorem no_temporary_or_internal_table cat structure t :
  Engine.describe cat = inr structure →
  t ∈ structure →
  ∃ r, r ∈ Engine.pragma_table_list cat ∧
       schema t = Some (VString (Engine.tl_schema r)) ∧
       name t = Some (VString (Engine.tl_name r)) ∧
       Engine.tl_schema r ≠ "temp" ∧
       String.prefix "sqlite_" (Engine.tl_name r) = false.
Proof.
  intros Hres Ht.
  destruct (describe_table cat structure t Hres Ht) as (r & Hr & Hwhere & ->).
  exists r. split_and!; [done|done|done|..].
  - intros Htemp. unfold Engine.table_list_where in Hwhere.
    rewrite Htemp, like_temp in Hwhere. done.
  - destruct (String.prefix "sqlite_" (Engine.tl_name r)) eqn:Hprefix; [|done].
    unfold Engine.table_list_where in Hwhere.
    rewrite (like_sqlite_prefix _ _ Hprefix), andb_false_r in Hwhere. done.
Qed.

Lemma no_temporary_or_internal_table_witness :
  Engine.describe Sample.database = inr Sample.structure ∧
  Sample.table_t ∈ Sample.structure ∧
  ∃ r, r ∈ Engine.pragma_table_list Sample.database ∧
       schema Sample.table_t = Some (VString (Engine.tl_schema r)) ∧
       name Sample.table_t = Some (VString (Engine.tl_name r)) ∧
       Engine.tl_schema r ≠ "temp" ∧
       String.prefix "sqlite_" (Engine.tl_name r) = false.
Proof.
  split_and!; [vm_compute; reflexivity|by left|].
  apply (no_temporary_or_internal_table Sample.database Sample.structure);
    [vm_compute; reflexivity|by left].
Defined.

(** Of the four tables of the sample database, one is left. *)
Example sample_described :
  Engine.describe Sample.database = inr Sample.structure.
Proof. vm_compute. reflexivity. Qed.

(** ** The order of the columns *)

Lemma table_info_unique (l : list Engine.TableInfoRow) x y :
  NoDup (Engine.ti_name <$> l) → x ∈ l → y ∈ l →
  Engine.table_info_order x y → Engine.table_info_order y x → x = y.
Proof.
  intros Hnodup Hx Hy Hxy Hyx.
  eapply NoDup_fmap_elem_of; [done..|]. by apply text_leb_antisym.
Qed.

Lemma index_info_unique (l : list Engine.IndexInfoRow) x y :
  NoDup (Engine.ii_seqno <$> l) → x ∈ l → y ∈ l →
  Engine.index_info_order x y → Engine.index_info_order y x → x = y.
Proof.
  unfold Engine.index_info_order. intros Hnodup Hx Hy Hxy Hyx.
  eapply NoDup_fmap_elem_of; [done..|].
  apply Is_true_true, Z.leb_le in Hxy, Hyx. lia.
Qed.

(** The columns of a table come out the same, in whatever order and with
    whatever [cid] the catalog lists them. *)
Lemma columns_up_to_order (l k : list Engine.TableInfoRow) :
  NoDup (Engine.ti_name <$> l) →
  Engine.column_without_cid <$> l ≡ₚ Engine.column_without_cid <$> k →
  Engine.column_from <$> Engine.order_by Engine.table_info_order l
  = Engine.column_from <$> Engine.order_by Engine.table_info_order k.
Proof.
  intros Hnames Hperm.
  change Engine.column_from
    with (Engine.column_from ∘ Engine.column_without_cid).
  rewrite !list_fmap_compose. f_equal. apply order_by_projected.
  - intros ??. apply text_leb_total.
  - intros ???. apply text_leb_trans.
  - done.
  - intros x y Hx Hy Hxy Hyx. by rewrite (table_info_unique _ x y Hnames).
  - done.
Qed.

(** So does the key of an index. *)
Lemma key_up_to_order (l k : list Engine.IndexInfoRow) :
  NoDup (Engine.ii_seqno <$> l) →
  Engine.key_without_cid <$> l ≡ₚ Engine.key_without_cid <$> k →
  Engine.index_info_select <$> Engine.order_by Engine.index_info_order l
  = Engine.index_info_select <$> Engine.order_by Engine.index_info_order k.
Proof.
  intros Hkeys Hperm.
  change Engine.index_info_select
    with (Engine.index_info_select ∘ Engine.key_without_cid).
  rewrite !list_fmap_compose. f_equal. apply order_by_projected.
  - intros ??. apply index_info_order_total.
  - intros ???. apply index_info_order_trans.
  - done.
  - intros x y Hx Hy Hxy Hyx. by rewrite (index_info_unique _ x y Hkeys).
  - done.
Qed.

(** C2.  In every table of the structure of a database the columns are in
    the order of their names, ascending.  So a second database with the
    same tables, which lists the columns of its tables in another order,
    has a structure with the same tables and, in each table, the same
    sequence of columns. *)
Theorem columns_sorted_by_name cat structure :
  Engine.describe cat = inr structure →
  Forall (λ t, StronglySorted Engine.text_le (column_name <$> columns t))
    structure ∧
  ∀ cat', Engine.distinct_column_names cat →
          Engine.same_columns_up_to_order cat cat' →
          ∃ structure', Engine.describe cat' = inr structure' ∧
                        Forall2 Engine.same_columns structure structure'.
Proof.
  intros ->%describe_inv. split.
  - apply Forall_fmap, Forall_forall. intros r _. simpl.
    rewrite <-list_fmap_compose.
    eapply (StronglySorted_fmap _
              (λ r1 r2, Is_true (Engine.table_info_order r1 r2)));
      [|apply order_by_sorted].
    + by intros ??.
    + intros ??. apply text_leb_total.
    + intros ???. apply text_leb_trans.
  - intros cat' Hnames (Hcs & Htl & Hti).
    exists (Engine.structure_of cat'). split; [apply describe_structure_of|].
    unfold Engine.structure_of, Engine.listed_tables. rewrite <-Hcs, <-Htl.
    apply Forall2_fmap, Forall_Forall2_diag, Forall_forall. intros r _.
    split_and!; [done..|]. simpl. symmetry.
    by apply columns_up_to_order.
Qed.

Lemma columns_sorted_by_name_witness :
  Engine.describe Sample.database = inr Sample.structure ∧
  Engine.distinct_column_names Sample.database ∧
  Engine.same_columns_up_to_order Sample.database Sample.redeclared ∧
  Forall (λ t, StronglySorted Engine.text_le (column_name <$> columns t))
    Sample.structure ∧
  ∃ structure', Engine.describe Sample.redeclared = inr structure' ∧
                Forall2 Engine.same_columns Sample.structure structure'.
Proof.
  assert (Engine.distinct_column_names Sample.database) as Hnames.
  { intros nm sch. simpl. destruct (Sample.is_named _ _ _ _); simpl;
      [|constructor]. apply (bool_decide_unpack _). reflexivity. }
  assert (Engine.same_columns_up_to_order Sample.database Sample.redeclared)
    as Hsame.
  { split_and!; [reflexivity..|].
    intros nm sch. simpl. destruct (Sample.is_named _ _ _ _); [|done].
    symmetry.
    exact (reverse_Permutation
             (Engine.column_without_cid <$> Sample.columns_of_t)). }
  destruct (columns_sorted_by_name Sample.database Sample.structure)
    as [Hsorted Hinv]; [vm_compute; reflexivity|].
  split_and!; [vm_compute; reflexivity|done|done|done|by apply Hinv].
Defined.

(** The structure of the sample database, whichever way its columns are
    declared. *)
Example sample_described' :
  Engine.describe Sample.database' = inr Sample.structure.
Proof. vm_compute. reflexivity. Qed.

(** The columns come out as before when the indexes are numbered the
    other way round. *)
Example redeclared_columns :
  match Engine.describe Sample.redeclared with
  | inr [t] => columns t
  | _ => []
  end
  = columns Sample.table_t.
Proof. vm_compute. reflexivity. Qed.

(** ** The order of the columns of an index *)

(** C3.  The columns of an index of the structure of a database are the
    names of the key of the index in the order of the key, from seqno 0
    upwards, in whatever order the catalog lists the key. *)
Theorem index_columns_in_key_order cat structure t ix key :
  Engine.describe cat = inr structure →
  t ∈ structure →
  ix ∈ indexes t →
  Engine.pragma_index_info cat (index_name ix) (schema t) ≡ₚ key →
  StronglySorted Engine.key_order key →
  index_columns ix = Engine.index_info_select <$> key.
Proof.
  intros Hres Ht Hix Hperm Hkey.
  destruct (describe_table cat structure t Hres Ht) as (r & _ & _ & ->).
  simpl in *. apply list_elem_of_fmap in Hix as (index & -> & _).
  simpl in *. f_equal.
  apply order_by_unique; [| | |done|].
  - intros ??. apply index_info_order_total.
  - intros ???. apply index_info_order_trans.
  - intros k1 k2 Hx Hy Hxy Hyx. rewrite Hperm in Hx, Hy.
    apply (key_order_elem_of key); [done..|].
    unfold Engine.index_info_order in *.
    apply Is_true_true, Z.leb_le in Hxy, Hyx. lia.
  - eapply (StronglySorted_fmap id) in Hkey; [by rewrite list_fmap_id in Hkey|].
    intros k1 k2. unfold Engine.key_order, Engine.index_info_order. simpl.
    intros Hlt. apply Is_true_true, Z.leb_le. lia.
Qed.

Lemma index_columns_in_key_order_witness :
  Engine.describe Sample.database = inr Sample.structure ∧
  Sample.table_t ∈ Sample.structure ∧
  Sample.index_t_ba ∈ indexes Sample.table_t ∧
  Engine.pragma_index_info Sample.database
    (index_name Sample.index_t_ba) (schema Sample.table_t)
    ≡ₚ Sample.key_of_t_ba ∧
  StronglySorted Engine.key_order Sample.key_of_t_ba ∧
  index_columns Sample.index_t_ba
    = Engine.index_info_select <$> Sample.key_of_t_ba.
Proof.
  assert (StronglySorted Engine.key_order Sample.key_of_t_ba) as Hkey.
  { repeat constructor. }
  assert (Engine.pragma_index_info Sample.database
            (index_name Sample.index_t_ba) (schema Sample.table_t)
          ≡ₚ Sample.key_of_t_ba) as Hperm.
  { apply reverse_Permutation. }
  split_and!; [vm_compute; reflexivity|by left|by right; left|done|done|].
  apply (index_columns_in_key_order Sample.database Sample.structure
           Sample.table_t Sample.index_t_ba Sample.key_of_t_ba);
    [vm_compute; reflexivity|by left|by right; left|done|done].
Defined.

(** An index on the columns (b, a): its columns are [b; a]. *)
Example index_on_b_a :
  match Engine.describe Sample.database with
  | inr [t] => (λ ix, (index_name ix, index_columns ix)) <$> indexes t
  | _ => []
  end
  = [ (Some (VString "sqlite_autoindex_t_1"),
       [ {[ "name" := VString "x" ]}; {[ "name" := VString "y" ]} ]);
      (Some (VString "t_ba"),
       [ {[ "name" := VString "b" ]}; {[ "name" := VString "a" ]} ]) ].
Proof. vm_compute. reflexivity. Qed.

(** A primary key made of the columns (x, y): the ordinal of x is 1, that
    of y is 2, and that of the other columns is 0. *)
Example composite_primary_key :
  match Engine.describe Sample.database with
  | inr [t] => (λ c, (column_name c, primaryKey c)) <$> columns t
  | _ => []
  end
  = [ (Some (VString "a"), Some (integer 0));
      (Some (VString "b"), Some (integer 0));
      (Some (VString "x"), Some (integer 1));
      (Some (VString "y"), Some (integer 2)) ].
Proof. vm_compute. reflexivity. Qed.

(** * More properties of [getStructure] *)

(** ** The first call *)

Section first_call.
Context {S E : Type} (storage : Storage S E).

Lemma bind_exec_recording {A} q (k : list Row → M (list (Event E) * S) E A)
    (log : list (Event E)) (s : S) :
  bind (exec (recording storage) q) k (log, s) =
  match storage q s with
  | (inl e, s1) => (inl e, (log ++ [(q, inl e)], s1))
  | (inr rows, s1) => k rows (log ++ [(q, inr rows)], s1)
  end.
Proof.
  unfold bind, exec, recording. simpl. by destruct (storage q s) as [[e|rows] s1].
Qed.

Lemma calls_unfold (s : S) :
  match storage pragmaTableListQuery s with
  | (inl e, _) =>
      result storage s = inl e ∧
      calls storage s = [(pragmaTableListQuery, inl e)]
  | (inr tables, s1) =>
      result storage s = (map_array (table_step storage) tables s1).1 ∧
      ∃ evs, calls storage s = (pragmaTableListQuery, inr tables) :: evs ∧
             loop_post table_log tables
               (map_array (table_step storage) tables s1).1 evs
  end.
Proof.
  unfold result, calls. rewrite !getStructure_steps, bind_exec_recording.
  destruct (storage pragmaTableListQuery s) as [[e|tables] s1] eqn:Hs.
  - by rewrite (bind_inl _ _ s e s1).
  - rewrite (bind_inr _ _ s tables s1) by done. split; [done|].
    destruct (observed_map_array _ _ table_log tables
                (table_step_observed storage)
                ([] ++ [(pragmaTableListQuery, inr tables)]) s1)
      as (evs & Heq & Hpost).
    exists evs. split; [|done]. exact (f_equal (λ x, x.2.1) Heq).
Qed.
End first_call.

(** X1.  Whatever the storage, the first call of [getStructure] is the
    table-list query, made in the state [getStructure] starts in.  When it
    fails, it is the only call and its error is the result. *)
Theorem table_list_first {S E} (storage : Storage S E) (s : S) :
  match (storage pragmaTableListQuery s).1 with
  | inl e =>
      result storage s = inl e ∧
      calls storage s = [(pragmaTableListQuery, inl e)]
  | inr tables =>
      ∃ evs, calls storage s = (pragmaTableListQuery, inr tables) :: evs
  end.
Proof.
  pose proof (calls_unfold storage s) as H.
  destruct (storage pragmaTableListQuery s) as [[e|tables] s1]; simpl; [done|].
  destruct H as (_ & evs & Hcalls & _). eauto.
Qed.

(** X2.  When the table list is empty, the structure is empty and no other
    query is issued. *)
Theorem empty_table_list {S E} (storage : Storage S E) (s : S) :
  (storage pragmaTableListQuery s).1 = inr [] →
  result storage s = inr [] ∧
  calls storage s = [(pragmaTableListQuery, inr [])].
Proof.
  intros Hs. pose proof (calls_unfold storage s) as H.
  destruct (storage pragmaTableListQuery s) as [[e|tables] s1];
    simplify_eq/=.
  destruct H as (Hres & evs & Hcalls & _ & Hlog). split; [done|].
  specialize (Hlog [] eq_refl). inv Hlog. done.
Qed.

Lemma empty_table_list_witness :
  (stateless (S:=unit) (Engine.engine Sample.empty) pragmaTableListQuery tt).1
    = inr [] ∧
  result (S:=unit) (stateless (Engine.engine Sample.empty)) tt = inr [] ∧
  calls (S:=unit) (stateless (Engine.engine Sample.empty)) tt
    = [(pragmaTableListQuery, inr [])].
Proof.
  split; [reflexivity|].
  apply (empty_table_list (S:=unit) (stateless (Engine.engine Sample.empty)) tt).
  reflexivity.
Defined.

(** ** Where an error comes from *)

(** X3.  [getStructure] has no error of its own: when it fails, the last
    call of the storage has failed, with that error, and every call before
    it was answered. *)
Theorem error_is_of_last_call {S E} (storage : Storage S E) (s : S) e :
  result storage s = inl e →
  ∃ q evs, calls storage s = evs ++ [(q, inl e)] ∧ Forall answered evs.
Proof.
  intros Hres. destruct (recording_run storage s) as (_ & Hclean & _).
  rewrite Hres in Hclean. destruct Hclean as (evs & q & ? & ?). eauto.
Qed.

Lemma error_is_of_last_call_witness :
  result (S:=unit) (stateless Sample.broken) tt = inl "disk I/O error" ∧
  ∃ q evs,
    calls (S:=unit) (stateless Sample.broken) tt
      = evs ++ [(q, inl "disk I/O error")] ∧
    Forall answered evs.
Proof.
  split; [vm_compute; reflexivity|].
  apply (error_is_of_last_call (S:=unit) (stateless Sample.broken) tt).
  vm_compute. reflexivity.
Defined.

Section never_fails_rules.
Context {S E : Type}.

Lemma never_fails_ret {A} (a : A) : never_fails (S:=S) (E:=E) (ret a).
Proof. intros s. by exists a. Qed.

Lemma never_fails_bind {A B} (m : M S E A) (k : A → M S E B) :
  never_fails m → (∀ a, never_fails (k a)) → never_fails (bind m k).
Proof.
  intros Hm Hk s. destruct (Hm s) as [a Ha].
  destruct (m s) as [r s1] eqn:Hms. simpl in Ha. subst r.
  rewrite (bind_inr _ _ _ _ _ Hms). apply Hk.
Qed.

Lemma never_fails_map_array {A B} (f : A → M S E B) l :
  (∀ x, never_fails (f x)) → never_fails (map_array f l).
Proof.
  intros Hf. induction l as [|x l IH]; simpl; [apply never_fails_ret|].
  apply never_fails_bind; [done|]. intros y.
  apply never_fails_bind; [done|]. intros ys. apply never_fails_ret.
Qed.

Lemma getStructure_never_fails (storage : Storage S E) :
  (∀ q, never_fails (exec storage q)) → never_fails (getStructure storage).
Proof.
  intros Hexec. rewrite getStructure_steps.
  apply never_fails_bind; [done|]. intros tables.
  apply never_fails_map_array. intros table.
  apply never_fails_bind; [|intros ixs].
  - apply never_fails_bind; [done|]. intros rows.
    apply never_fails_map_array. intros index.
    apply never_fails_bind; [done|]. intros cols. apply never_fails_ret.
  - apply never_fails_bind; [|intros; apply never_fails_ret].
    apply never_fails_bind; [done|]. intros rows. apply never_fails_ret.
Qed.
End never_fails_rules.

(** X4.  Over a storage that answers every query, in every state,
    [getStructure] returns a structure, whatever the rows are: a row that
    lacks a field, or holds a value of another type, makes no error. *)
Theorem returns_when_answered {S E} (storage : Storage S E) (s : S) :
  (∀ q s', ∃ rows, (storage q s').1 = inr rows) →
  ∃ structure, result storage s = inr structure.
Proof.
  intros Hstorage. apply (getStructure_never_fails storage).
  intros q s'. apply Hstorage.
Qed.

Lemma returns_when_answered_witness :
  (∀ q s', ∃ rows,
     (Sample.counting (E:=string) (λ _, inr [ {[ "pk" := VNull ]} ]) q s').1
     = inr rows) ∧
  ∃ structure,
    result (Sample.counting (E:=string) (λ _, inr [ {[ "pk" := VNull ]} ])) 0
    = inr structure.
Proof.
  split; [intros q s'; eexists; reflexivity|].
  apply (returns_when_answered
           (Sample.counting (E:=string) (λ _, inr [ {[ "pk" := VNull ]} ])) 0).
  intros q s'. eexists. reflexivity.
Defined.

(** ** The number of queries *)

Section query_count.
Context {S E : Type}.

Lemma index_log_length table indexRows ixs (evs : list (Event E)) :
  loop_log (index_log table) indexRows ixs evs → length evs = length ixs.
Proof.
  induction 1 as [|index ix evs l k evs' (cols & -> & _) _ IH]; [done|].
  simpl. by rewrite IH.
Qed.

Lemma table_log_length tables structure (evs : list (Event E)) :
  loop_log table_log tables structure evs →
  length evs = sum_list_with queries_of_table structure.
Proof.
  induction 1 as [|table t evs l k evs' Ht _ IH]; [done|].
  destruct Ht as (indexRows & ixs & ievs & columnRows & Hix & -> & ->).
  rewrite length_app, IH. simpl. rewrite length_app. simpl.
  rewrite (index_log_length _ _ _ _ Hix). unfold queries_of_table. simpl. lia.
Qed.
End query_count.

(** X5.  A call that returns a structure has made one call of the storage
    for the table list, two for each table of the structure, and one for
    each index. *)
Theorem query_count {S E} (storage : Storage S E) (s : S) structure :
  result storage s = inr structure →
  length (calls storage s) = 1 + sum_list_with queries_of_table structure.
Proof.
  intros Hres. destruct (recording_run storage s) as (_ & _ & Hlog).
  destruct (Hlog _ Hres) as (tables & tevs & -> & Hloop).
  simpl. by rewrite (table_log_length _ _ _ Hloop).
Qed.

Lemma query_count_witness :
  result (S:=unit) (stateless (Sample.flagged (integer 1))) tt
    = inr [Sample.flagged_table true] ∧
  length (calls (S:=unit) (stateless (Sample.flagged (integer 1))) tt)
    = 1 + sum_list_with queries_of_table [Sample.flagged_table true].
Proof.
  split; [vm_compute; reflexivity|].
  apply (query_count (S:=unit) (stateless (Sample.flagged (integer 1))) tt).
  vm_compute. reflexivity.
Defined.

(** ** The result and the answers *)

Section agree_rules.
Context {S1 S2 E : Type}.

Lemma agree_ret {A} (a : A) : agree (S1:=S1) (S2:=S2) (E:=E) (ret a) (ret a).
Proof. done. Qed.

Lemma agree_bind {A B} (m1 : M S1 E A) (m2 : M S2 E A)
    (k1 : A → M S1 E B) (k2 : A → M S2 E B) :
  agree m1 m2 → (∀ a, agree (k1 a) (k2 a)) → agree (bind m1 k1) (bind m2 k2).
Proof.
  intros Hm Hk s1 s2. specialize (Hm s1 s2). unfold bind.
  destruct (m1 s1) as [[e|a] s1'], (m2 s2) as [[e'|a'] s2']; simpl in *;
    simplify_eq; [done|apply Hk].
Qed.

Lemma agree_map_array {A B} (f1 : A → M S1 E B) (f2 : A → M S2 E B) l :
  (∀ x, agree (f1 x) (f2 x)) → agree (map_array f1 l) (map_array f2 l).
Proof.
  intros Hf. induction l as [|x l IH]; simpl; [done|].
  apply agree_bind; [done|]. intros y.
  apply agree_bind; [done|]. intros ys. apply agree_ret.
Qed.

Lemma getStructure_agree (storage1 : Storage S1 E) (storage2 : Storage S2 E) :
  (∀ q, agree (exec storage1 q) (exec storage2 q)) →
  agree (getStructure storage1) (getStructure storage2).
Proof.
  intros Hexec. rewrite !getStructure_steps.
  apply agree_bind; [done|]. intros tables.
  apply agree_map_array. intros table.
  apply agree_bind; [|intros ixs].
  - apply agree_bind; [done|]. intros rows.
    apply agree_map_array. intros index.
    apply agree_bind; [done|]. intros cols. apply agree_ret.
  - apply agree_bind; [|intros; apply agree_ret].
    apply agree_bind; [done|]. intros rows. apply agree_ret.
Qed.
End agree_rules.

(** X6.  The result of [getStructure] depends on the storage through its
    answers alone: over a storage that answers each query [q] with [db q],
    whatever state it is in and however it changes it, the result is that
    over the stateless storage [db]. *)
Theorem result_of_answers {S E} (storage : Storage S E)
    (db : Query → E + list Row) (s : S) :
  (∀ q s', (storage q s').1 = db q) →
  result storage s = result (S:=unit) (stateless db) tt.
Proof.
  intros Hdb. apply (getStructure_agree storage (stateless db)).
  intros q s1 s2. apply Hdb.
Qed.

Lemma result_of_answers_witness :
  (∀ q s', (Sample.counting (Sample.flagged (integer 1)) q s').1
           = Sample.flagged (integer 1) q) ∧
  result (Sample.counting (Sample.flagged (integer 1))) 0
  = result (S:=unit) (stateless (Sample.flagged (integer 1))) tt.
Proof.
  split; [intros q s'; reflexivity|].
  apply (result_of_answers (Sample.counting (Sample.flagged (integer 1)))).
  intros q s'. reflexivity.
Defined.

(** ** Which queries must be answered *)

Lemma Forall2_exists_Forall {A B} (P : A → B → Prop) l :
  (∃ k, Forall2 P l k) ↔ Forall (λ x, ∃ y, P x y) l.
Proof.
  split.
  - intros [k Hk]. induction Hk; constructor; eauto.
  - induction 1 as [|x l [y Hy] _ [k Hk]]; [by exists []|].
    exists (y :: k). by constructor.
Qed.

Lemma table_of_exists {E} (db : Query → E + list Row) table :
  (∃ t, table_of db table t) ↔ table_answered db table.
Proof.
  unfold table_of, table_answered, index_of. split.
  - intros (t & indexRows & ixs & columnRows & Hil & Hix & Hti & _).
    split; [|by eauto]. exists indexRows. split; [done|].
    apply (Forall_impl (λ index, ∃ ix, index_of db table index ix)).
    + apply Forall2_exists_Forall. eauto.
    + intros index (ix & cols & ? & _). eauto.
  - intros [(indexRows & Hil & Hix) (columnRows & Hti)].
    assert (∃ ixs, Forall2 (index_of db table) indexRows ixs) as [ixs Hixs].
    { apply Forall2_exists_Forall.
      apply (Forall_impl
               (λ index, ∃ cols, db (indexInfoQuery table index) = inr cols));
        [done|].
      intros index (cols & ?). eexists. by exists cols. }
    eexists. exists indexRows, ixs, columnRows. done.
Qed.

(** X7.  Over a stateless storage [getStructure] returns a structure
    exactly when the table list is answered and, for every row of it, so
    are its index list, the index-column list of every row of that index
    list, and its column list. *)
Theorem returns_iff_answered {S E} (db : Query → E + list Row) (s : S) :
  (∃ structure, result (stateless db) s = inr structure) ↔
  ∃ tables, db pragmaTableListQuery = inr tables ∧
            Forall (table_answered db) tables.
Proof.
  split.
  - intros (structure & Hres).
    apply getStructure_stateless in Hres as (tables & Htl & Htables).
    exists tables. split; [done|].
    apply (Forall_impl (λ table, ∃ t, table_of db table t)).
    + apply Forall2_exists_Forall. eauto.
    + intros table. apply table_of_exists.
  - intros (tables & Htl & Htables).
    assert (∃ structure, Forall2 (table_of db) tables structure)
      as [structure Hs].
    { apply Forall2_exists_Forall.
      apply (Forall_impl (table_answered db)); [done|].
      intros table. apply table_of_exists. }
    exists structure. apply getStructure_stateless. eauto.
Qed.

(** ** Fields that are not flags *)

(** X8.  Row by row, in the order of the rows and without leaving one out,
    the schema, name and type of a table, the name, type and default value
    of a column and the name and origin of an index are the fields of the
    row as the storage delivered them, whatever they hold; the columns of
    an index are the rows of the answer to its index-column query. *)
Theorem fields_pass_through {S E} (db : Query → E + list Row) (s : S)
    structure tables :
  result (stateless db) s = inr structure →
  db pragmaTableListQuery = inr tables →
  Forall2 (row_fields db) tables structure.
Proof.
  intros Hres Htl. eapply Forall2_impl; [by eapply result_stateless|].
  intros table t Ht. unfold row_fields. split_and!.
  - by destruct Ht as (?&?&?&_&_&_&->).
  - by destruct Ht as (?&?&?&_&_&_&->).
  - by destruct Ht as (?&?&?&_&_&_&->).
  - intros columnRows. by apply (table_of_columns db table t).
  - intros indexRows Hil.
    destruct Ht as (indexRows' & ixs & columnRows & Hil' & Hix & _ & ->).
    rewrite Hil in Hil'. simplify_eq/=. eapply Forall2_impl; [done|].
    by intros index ix (cols & ? & ->).
Qed.

Lemma fields_pass_through_witness :
  result (S:=unit) (stateless Sample.bare) tt = inr [Sample.bare_table] ∧
  Sample.bare pragmaTableListQuery = inr [ {[ "name" := VString "t" ]} ] ∧
  Forall2 (row_fields Sample.bare) [ {[ "name" := VString "t" ]} ]
    [Sample.bare_table].
Proof.
  split_and!; [reflexivity..|].
  apply (fields_pass_through (S:=unit) Sample.bare tt); reflexivity.
Defined.

(** X9.  Row by row, a flag whose field the row does not have is false. *)
Theorem missing_flag_is_false {S E} (db : Query → E + list Row) (s : S)
    structure tables :
  result (stateless db) s = inr structure →
  db pragmaTableListQuery = inr tables →
  Forall2 (row_flags flag_of_missing db) tables structure.
Proof. apply flags_of_rows. by intros v ->. Qed.

Lemma missing_flag_is_false_witness :
  result (S:=unit) (stateless Sample.bare) tt = inr [Sample.bare_table] ∧
  Sample.bare pragmaTableListQuery = inr [ {[ "name" := VString "t" ]} ] ∧
  Forall2 (row_flags flag_of_missing Sample.bare)
    [ {[ "name" := VString "t" ]} ] [Sample.bare_table].
Proof.
  split_and!; [reflexivity..|].
  apply (missing_flag_is_false (S:=unit) Sample.bare tt); reflexivity.
Defined.

(** ** The structure of a database, spelled out *)

(** X10.  Over a database [getStructure] returns, and what it returns is
    this: one table for each row the table list keeps, in the order of
    schema and name; in it the columns of the table in the order of their
    names and its indexes in the order of theirs, each index with the
    columns of its key in the order of [seqno]; a flag is true when the
    catalog's integer is not 0, and the other fields are the catalog's. *)
Theorem structure_of_database cat :
  Engine.describe cat = inr (Engine.structure_of cat).
Proof.
  apply (getStructure_stateless (S:=unit)).
  exists (Engine.table_list_select <$> Engine.listed_tables cat).
  split; [apply engine_table_list|].
  apply Forall2_fmap, Forall_Forall2_diag, Forall_forall. intros r _.
  apply toTable_select.
Qed.

(** ** The order of the tables and of the indexes *)

(** X11.  The tables of the structure of a database are in the order of
    their schemas and, within a schema, of their names. *)
Theorem tables_sorted_by_schema_and_name cat :
  ∃ structure, Engine.describe cat = inr structure ∧
               StronglySorted Engine.table_le structure.
Proof.
  exists (Engine.structure_of cat). split; [apply describe_structure_of|].
  eapply (StronglySorted_fmap _
            (λ r1 r2, Is_true (Engine.table_list_order r1 r2)));
    [|apply order_by_sorted].
  - intros r1 r2. unfold Engine.table_le, Engine.table_list_order. simpl.
    by destruct (String.compare _ _).
  - apply table_list_order_total.
  - apply table_list_order_trans.
Qed.

(** X12.  In every table of the structure of a database the indexes are in
    the order of their names. *)
Theorem indexes_sorted_by_name cat :
  ∃ structure, Engine.describe cat = inr structure ∧
    Forall (λ t, StronglySorted Engine.text_le (index_name <$> indexes t))
      structure.
Proof.
  exists (Engine.structure_of cat). split; [apply describe_structure_of|].
  apply Forall_fmap, Forall_forall. intros r _. simpl.
  rewrite <-list_fmap_compose.
  eapply (StronglySorted_fmap _
            (λ r1 r2, Is_true (Engine.index_list_order r1 r2)));
    [|apply order_by_sorted].
  - by intros ??.
  - intros ??. apply text_leb_total.
  - intros ???. apply text_leb_trans.
Qed.

(** ** Which tables are listed *)

Lemma like_cons_nil cs p pattern :
  Ascii.eqb p "%" = false → Engine.like cs (String p pattern) "" = false.
Proof. intros Hp. simpl. rewrite Hp. by destruct (Ascii.eqb p "_"). Qed.

Lemma like_cons_cons cs p pattern c s :
  Ascii.eqb p "%" = false → Ascii.eqb p "_" = false →
  Engine.like cs (String p pattern) (String c s)
  = Ascii.eqb (Engine.fold_case cs p) (Engine.fold_case cs c)
    && Engine.like cs pattern s.
Proof. intros Hp1 Hp2. simpl. by rewrite Hp1, Hp2. Qed.

Lemma plain_cons p pattern :
  Engine.plain (String p pattern) = true →
  Ascii.eqb p "%" = false ∧ Ascii.eqb p "_" = false ∧
  Engine.to_lower p = p ∧ Engine.plain pattern = true.
Proof.
  simpl. rewrite !andb_true_iff, !negb_true_iff, Ascii.eqb_eq.
  by intros [[[? ?] ?] ?].
Qed.

Lemma fold_case_plain cs p : Engine.to_lower p = p → Engine.fold_case cs p = p.
Proof. by destruct cs. Qed.

(** A pattern without wildcards matches the strings that are the pattern,
    as LIKE reads their letters. *)
Lemma like_plain cs pattern s :
  Engine.plain pattern = true →
  Engine.like cs pattern s = true ↔ Engine.folded cs s = pattern.
Proof.
  revert s. induction pattern as [|p pattern IH]; intros s Hplain.
  { by destruct s. }
  apply plain_cons in Hplain as (Hp1 & Hp2 & Hp3 & Hplain).
  destruct s as [|c s].
  { by rewrite like_cons_nil. }
  rewrite like_cons_cons, andb_true_iff, Ascii.eqb_eq, IH,
    (fold_case_plain cs p Hp3) by done.
  simpl. split; [by intros [-> ->]|by intros [= -> ->]].
Qed.

(** A pattern without wildcards, followed by [_%], matches the strings
    that start with the pattern, as LIKE reads their letters, and go
    on. *)
Lemma like_plain_and_more cs pattern s :
  Engine.plain pattern = true →
  Engine.like cs (pattern +:+ "_%") s = true ↔
  Engine.folded cs (substring 0 (String.length pattern) s) = pattern ∧
  String.length pattern < String.length s.
Proof.
  revert s. induction pattern as [|p pattern IH]; intros s Hplain.
  { destruct s as [|c s]; simpl.
    - split; [done|]. intros [_ ?]. lia.
    - pose proof (like_percent cs s) as Hs. simpl in Hs. rewrite Hs.
      split; [|done]. intros _. split; [done|lia]. }
  apply plain_cons in Hplain as (Hp1 & Hp2 & Hp3 & Hplain).
  destruct s as [|c s].
  { change (String p pattern +:+ "_%") with (String p (pattern +:+ "_%")).
    rewrite like_cons_nil by done. simpl. split; [done|]. intros [_ ?]. lia. }
  change (String p pattern +:+ "_%") with (String p (pattern +:+ "_%")).
  rewrite like_cons_cons, andb_true_iff, Ascii.eqb_eq, IH,
    (fold_case_plain cs p Hp3) by done.
  simpl. split.
  - intros (-> & -> & ?). split; [done|lia].
  - intros ([= -> ->] & ?). split_and!; [done..|lia].
Qed.

Lemma table_list_where_kept cs r :
  Engine.table_list_where cs r
  ↔ Engine.kept cs (Engine.tl_schema r) (Engine.tl_name r).
Proof.
  unfold Engine.table_list_where, Engine.kept.
  rewrite <-(like_plain cs "temp") by done.
  rewrite <-(like_plain_and_more cs "sqlite") by done.
  rewrite andb_True, !negb_True, !Is_true_true. done.
Qed.

(** X13.  A table of the catalog is in the structure exactly when its
    schema is not [temp] and its name is not [sqlite] followed by at least
    one more character, the letters being read as LIKE reads them: in
    capitals or not, unless the connection has [case_sensitive_like] on.
    So a table named [sqlite] is in and a table named [sqlite3_notes] is
    out; tables named [SQLITE_NOTES], or of a schema written [TEMP], are
    out unless LIKE is sensitive to case. *)
Theorem tables_kept cat :
  ∃ structure, Engine.describe cat = inr structure ∧
    ∀ r, r ∈ Engine.pragma_table_list cat →
      (∃ t, t ∈ structure ∧
            schema t = Some (VString (Engine.tl_schema r)) ∧
            name t = Some (VString (Engine.tl_name r))) ↔
      Engine.kept (Engine.case_sensitive_like cat)
        (Engine.tl_schema r) (Engine.tl_name r).
Proof.
  exists (Engine.structure_of cat). split; [apply describe_structure_of|].
  intros r Hr. split.
  - intros (t & Ht & Hschema & Hname).
    apply list_elem_of_fmap in Ht as (r' & -> & Hr').
    apply elem_of_order_by, list_elem_of_filter in Hr' as [Hwhere _].
    apply table_list_where_kept in Hwhere.
    injection Hschema as <-. injection Hname as <-. done.
  - intros Hkept. exists (Engine.table_from cat r). split; [|done].
    apply list_elem_of_fmap_2, elem_of_order_by, list_elem_of_filter.
    split; [by apply table_list_where_kept|done].
Qed.

(** The tables that are left of the look-alikes. *)
Example lookalikes_described :
  match Engine.describe Sample.lookalikes with
  | inr structure => (λ t, (schema t, name t)) <$> structure
  | inl _ => []
  end
  = [ (Some (VString "main"), Some (VString "my_sqlite_notes"));
      (Some (VString "main"), Some (VString "sqlite"));
      (Some (VString "temporary"), Some (VString "notes")) ].
Proof. vm_compute. reflexivity. Qed.

(** And over a connection with [case_sensitive_like] on. *)
Example lookalikes_case_sensitive_described :
  match Engine.describe Sample.lookalikes_case_sensitive with
  | inr structure => (λ t, (schema t, name t)) <$> structure
  | inl _ => []
  end
  = [ (Some (VString "TEMP"), Some (VString "notes"));
      (Some (VString "main"), Some (VString "SQLITE_NOTES"));
      (Some (VString "main"), Some (VString "my_sqlite_notes"));
      (Some (VString "main"), Some (VString "sqlite"));
      (Some (VString "temporary"), Some (VString "notes")) ].
Proof. vm_compute. reflexivity. Qed.

(** ** The order of creation *)

Lemma table_list_order_antisym r1 r2 :
  Engine.table_list_order r1 r2 → Engine.table_list_order r2 r1 →
  (Engine.tl_schema r1, Engine.tl_name r1)
  = (Engine.tl_schema r2, Engine.tl_name r2).
Proof.
  unfold Engine.table_list_order.
  rewrite (String.compare_antisym (Engine.tl_schema r2)).
  destruct (String.compare (Engine.tl_schema r1) (Engine.tl_schema r2))
    eqn:Hschema; simpl; [|done..].
  apply String.compare_eq_iff in Hschema. intros H12 H21.
  by rewrite Hschema, (text_leb_antisym _ _ H12 H21).
Qed.

Lemma table_list_unique (l : list Engine.TableListRow) x y :
  NoDup ((λ r, (Engine.tl_schema r, Engine.tl_name r)) <$> l) →
  x ∈ l → y ∈ l →
  Engine.table_list_order x y → Engine.table_list_order y x → x = y.
Proof.
  intros Hnodup Hx Hy Hxy Hyx.
  eapply NoDup_fmap_elem_of; [done..|]. by apply table_list_order_antisym.
Qed.

Lemma index_list_unique (l : list Engine.IndexListRow) x y :
  NoDup (Engine.il_name <$> l) → x ∈ l → y ∈ l →
  Engine.index_list_order x y → Engine.index_list_order y x → x = y.
Proof.
  intros Hnodup Hx Hy Hxy Hyx.
  eapply NoDup_fmap_elem_of; [done..|]. by apply text_leb_antisym.
Qed.

(** The rows of the table list come out the same, in whatever order the
    catalog lists them. *)
Lemma listed_tables_up_to_order cat1 cat2 :
  Engine.distinct_table_names cat1 →
  Engine.case_sensitive_like cat1 = Engine.case_sensitive_like cat2 →
  Engine.pragma_table_list cat1 ≡ₚ Engine.pragma_table_list cat2 →
  Engine.listed_tables cat1 = Engine.listed_tables cat2.
Proof.
  intros Htables Hcs Htl. unfold Engine.listed_tables. rewrite <-Hcs.
  pose proof (order_by_projected Engine.table_list_order
    table_list_order_total table_list_order_trans id
    (filter (λ r, Is_true (Engine.table_list_where
                             (Engine.case_sensitive_like cat1) r))
       (Engine.pragma_table_list cat1))
    (filter (λ r, Is_true (Engine.table_list_where
                             (Engine.case_sensitive_like cat1) r))
       (Engine.pragma_table_list cat2))) as Hsorted.
  rewrite !list_fmap_id in Hsorted. apply Hsorted; [done| |by rewrite Htl].
  intros x y Hx Hy Hxy Hyx. apply list_elem_of_filter in Hx as [_ Hx].
  apply list_elem_of_filter in Hy as [_ Hy].
  by rewrite (table_list_unique _ x y Htables).
Qed.

(** So do the indexes of a table, their keys being the same. *)
Lemma indexes_up_to_order cat1 cat2 schema (l k : list Engine.IndexListRow) :
  Engine.distinct_key_positions cat1 →
  (∀ name schema,
     Engine.key_without_cid <$> Engine.pragma_index_info cat1 name schema
     ≡ₚ Engine.key_without_cid <$> Engine.pragma_index_info cat2 name schema) →
  NoDup (Engine.il_name <$> l) →
  Engine.index_without_seq <$> l ≡ₚ Engine.index_without_seq <$> k →
  Engine.index_from cat1 schema <$> Engine.order_by Engine.index_list_order l
  = Engine.index_from cat2 schema <$> Engine.order_by Engine.index_list_order k.
Proof.
  intros Hkeys Hii Hnames Hperm.
  transitivity
    (Engine.index_from cat1 schema <$> Engine.order_by Engine.index_list_order k).
  - change (Engine.index_from cat1 schema)
      with (Engine.index_from cat1 schema ∘ Engine.index_without_seq).
    rewrite !list_fmap_compose. f_equal. apply order_by_projected.
    + intros ??. apply text_leb_total.
    + intros ???. apply text_leb_trans.
    + done.
    + intros x y Hx Hy Hxy Hyx. by rewrite (index_list_unique _ x y Hnames).
    + done.
  - apply list_fmap_ext. intros _ r _. unfold Engine.index_from. f_equal.
    by apply key_up_to_order.
Qed.

(** X14.  The structure of a database does not depend on the order in
    which its tables, the columns of its tables, its indexes and the keys
    of its indexes are listed by the catalog, nor on their [cid] and [seq]:
    two databases that differ in that alone have the same structure. *)
Theorem order_invariance cat cat' :
  Engine.distinct_table_names cat →
  Engine.distinct_column_names cat →
  Engine.distinct_index_names cat →
  Engine.distinct_key_positions cat →
  Engine.same_up_to_order cat cat' →
  Engine.describe cat' = Engine.describe cat.
Proof.
  intros Htables Hnames Hindexes Hkeys (Hcs & Htl & Hti & Hil & Hii).
  rewrite !describe_structure_of. f_equal. unfold Engine.structure_of.
  rewrite <-(listed_tables_up_to_order cat cat') by done.
  apply list_fmap_ext. intros _ r _. unfold Engine.table_from.
  f_equal; symmetry.
  - by apply columns_up_to_order.
  - by apply indexes_up_to_order.
Qed.

Lemma order_invariance_witness :
  Engine.distinct_table_names Sample.database ∧
  Engine.distinct_column_names Sample.database ∧
  Engine.distinct_index_names Sample.database ∧
  Engine.distinct_key_positions Sample.database ∧
  Engine.same_up_to_order Sample.database Sample.shuffled ∧
  Engine.describe Sample.shuffled = Engine.describe Sample.database.
Proof.
  assert (Engine.distinct_table_names Sample.database) as Htables.
  { apply (bool_decide_unpack _). reflexivity. }
  assert (Engine.distinct_column_names Sample.database) as Hnames.
  { intros nm sch. simpl. destruct (Sample.is_named _ _ _ _); simpl;
      [|constructor]. apply (bool_decide_unpack _). reflexivity. }
  assert (Engine.distinct_index_names Sample.database) as Hindexes.
  { intros nm sch. simpl. destruct (Sample.is_named _ _ _ _); simpl;
      [|constructor]. apply (bool_decide_unpack _). reflexivity. }
  assert (Engine.distinct_key_positions Sample.database) as Hkeys.
  { intros nm sch. simpl.
    repeat (destruct (Sample.is_named _ _ _ _); simpl;
            [apply (bool_decide_unpack _); reflexivity|]).
    constructor. }
  assert (Engine.same_up_to_order Sample.database Sample.shuffled) as Hsame.
  { split_and!.
    - reflexivity.
    - symmetry. apply reverse_Permutation.
    - intros nm sch. simpl. destruct (Sample.is_named _ _ _ _); [|done].
      symmetry.
      exact (reverse_Permutation
               (Engine.column_without_cid <$> Sample.columns_of_t)).
    - intros nm sch. simpl. destruct (Sample.is_named _ _ _ _); [|done].
      apply Permutation_swap.
    - intros nm sch. simpl.
      repeat (destruct (Sample.is_named _ _ _ _); [done|]).
      done. }
  split_and!; [done..|].
  by apply (order_invariance Sample.database Sample.shuffled).
Defined.
